(** * Playwright extensions for AngularJS ng-model: a shallow embedding

    The development follows the current revision of the extension
    (the polling [getByNgModelValue] resolver, the polling
    [toHaveNgValue] matcher, [getNgModelValue] and
    [installAngularjsExtensions]) and, where a statement is about it, the
    first revision of the scope reader, which walked the model path
    instead of calling [$eval].

    Layout: JavaScript values and [JSON.stringify]; the host (clock,
    page, element handles) as explicit state; the readers, the two poll
    loops and the installer; the notions the statements use and sample
    pages; facts about the definitions; then the claims.

    What the embedding fixes:
    - an [async] function is a function of the world that returns a
      completion and the world it leaves; [await] is sequencing;
    - a thrown value is its [message]; the [message] thunks of an outcome
      are the strings they would build;
    - the page is not part of the program: the world holds, for each
      host call to come, the page that call sees and the time it takes,
      so that the page can change between any two calls;
    - a loop takes fuel, and the statements that say an invocation
      returns give the fuel that is enough;
    - numbers are integers and the code units of strings are bytes. *)

From stdpp Require Import gmap strings list.
From Stdlib Require Import ZArith Lia String Ascii.
From Stdlib Require DecimalString DecimalZ.

Local Open Scope string_scope.
Local Open Scope Z_scope.

(** ** Strings *)

Module Str.

(** [Array.prototype.join]. *)
Fixpoint join (sep : string) (l : list string) : string :=
  match l with
  | [] => ""
  | [x] => x
  | x :: l' => x ++ sep ++ join sep l'
  end.

(** Every character of [s] satisfies [p]. *)
Fixpoint all (p : ascii -> bool) (s : string) : bool :=
  match s with
  | EmptyString => true
  | String c s' => p c && all p s'
  end.

(** [s] does not begin with a character satisfying [p]. *)
Definition stops (p : ascii -> bool) (s : string) : bool :=
  match s with
  | EmptyString => true
  | String c _ => negb (p c)
  end.

End Str.

(** ** JavaScript values

    The values that cross the evaluation boundary: JSON-shaped data and
    [undefined].  Numbers are the integers (what the page models of the
    examples hold); an object is its list of own enumerable properties in
    enumeration order, which for non-index keys is insertion order. *)

#[warnings="-register-all"] Inductive JsValue : Type :=
| JUndefined
| JNull
| JBool (b : bool)
| JNum (n : Z)
| JStr (s : string)
| JArr (elems : list JsValue)
| JObj (props : list (string * JsValue)).

Module Json.

(** Decimal rendering of an integer, as [Number.prototype.toString]
    gives for integers. *)
Definition number_to_string (n : Z) : string :=
  DecimalString.NilZero.string_of_int (Z.to_int n).

Definition hex_digit (n : N) : ascii :=
  match n with
  | 0 => "0" | 1 => "1" | 2 => "2" | 3 => "3" | 4 => "4" | 5 => "5"
  | 6 => "6" | 7 => "7" | 8 => "8" | 9 => "9" | 10 => "a" | 11 => "b"
  | 12 => "c" | 13 => "d" | 14 => "e" | _ => "f"
  end%N%char.

(** The one-character string holding a double quote. *)
Definition dquote : string := String (ascii_of_N 34) "".

(** One code unit of [QuoteJSONString]. *)
Definition escape_char (c : ascii) : string :=
  let n := N_of_ascii c in
  if (n =? 34)%N then String "\" dquote
  else if (n =? 92)%N then "\\"
  else if (n =? 8)%N then "\b"
  else if (n =? 12)%N then "\f"
  else if (n =? 10)%N then "\n"
  else if (n =? 13)%N then "\r"
  else if (n =? 9)%N then "\t"
  else if (n <? 32)%N then
    String "\" (String "u" (String "0" (String "0"
      (String (hex_digit (n / 16)) (String (hex_digit (n mod 16)) "")))))
  else String c "".

Fixpoint escape (s : string) : string :=
  match s with
  | EmptyString => ""
  | String c s' => escape_char c ++ escape s'
  end.

Definition quote (s : string) : string := dquote ++ escape s ++ dquote.

(** [JSON.stringify v]; [None] is the [undefined] it returns for
    [undefined].  Inside an array [undefined] is written [null]; a
    property whose value is [undefined] is left out.  The properties of
    an object are written in the order of its list, which is the order
    in which the object enumerates them: integer-like keys first, in
    ascending order, then the other keys in the order they were
    inserted. *)
Fixpoint stringify (v : JsValue) : option string :=
  match v with
  | JUndefined => None
  | JNull => Some "null"
  | JBool true => Some "true"
  | JBool false => Some "false"
  | JNum n => Some (number_to_string n)
  | JStr s => Some (quote s)
  | JArr l =>
      Some ("[" ++ Str.join "," (map (fun x => default "null" (stringify x)) l) ++ "]")
  | JObj l =>
      Some ("{" ++ Str.join ","
              (omap (fun kv => (fun s => quote (fst kv) ++ ":" ++ s) <$> stringify (snd kv)) l)
            ++ "}")
  end.

(** The comparison both loops use:
    [JSON.stringify(actual) === JSON.stringify(expected)]. *)
Definition Equality (a b : JsValue) : bool :=
  bool_decide (stringify a = stringify b).

(** What a template literal prints for [JSON.stringify(v)]. *)
Definition template (v : JsValue) : string :=
  default "undefined" (stringify v).

End Json.

(** ** Completions and the host

    An awaited host call either returns or throws; what is thrown is
    represented by its [message].  The page lives outside the program and
    changes on its own: the world carries, for every host call to come,
    the page that call will see and the time it will take. *)

Inductive Completion (A : Type) : Type :=
| Normal (a : A)
| Throw (message : string).
Arguments Normal {A} a.
Arguments Throw {A} message.

(** The scope object of an element: [$eval] when it is a function, and
    the scope's own properties. *)
Record Scope : Type := {
  scope_eval : option (string -> Completion JsValue);
  scope_self : JsValue;
}.

Record Element : Type := {
  el_id : string;                    (* [el.id], empty when there is none *)
  el_ng_model : option string;       (* [el.getAttribute('ng-model')] *)
  el_scope : option Scope;           (* [angular.element(el).scope()] *)
}.

Definition Handle : Type := nat.

(** A locator is the chain of selectors from the page; the page itself
    is the empty chain. *)
Definition Locator : Type := list string.

Definition locator (root : Locator) (selector : string) : Locator :=
  (root ++ [selector])%list.

Record Dom : Type := {
  dom_angular : bool;                               (* [window.angular] is there *)
  dom_nodes : Locator -> Completion (list Handle);  (* the elements a locator matches *)
  dom_element : Handle -> Completion Element;       (* the live element of a handle *)
}.

Inductive HostCall : Type :=
| CallNow                               (* [Date.now()] *)
| CallSleep (ms : Z)                    (* [setTimeout] awaited *)
| CallElementHandles (l : Locator)      (* [locator.elementHandles()] *)
| CallCount (l : Locator)               (* [locator.count()] *)
| CallEvaluate (h : Handle)             (* [handle.evaluate(fn)] *)
| CallEvaluateFirst (l : Locator).      (* [locator.first().evaluate(fn)] *)

(** The attributes the program sets are put on record; whether the pages
    to come show them is up to the world. *)
Record World : Type := {
  w_clock : Z;                                  (* milliseconds *)
  w_calls : list HostCall;                      (* host calls made, newest first *)
  w_writes : list (Handle * string * string);   (* [setAttribute] calls, newest first *)
  w_latency : nat -> nat;                       (* time the k-th host call takes *)
  w_dom : nat -> Dom;                           (* the page the k-th host call sees *)
}.

(** What an in-page function sees besides its element. *)
Record Window : Type := {
  win_angular : bool;
  win_now : Z;
}.

(** What an in-page function does: its completion and the attributes it
    set on its element. *)
Record PageResult (A : Type) : Type := {
  pr_completion : Completion A;
  pr_set : list (string * string);
}.
Arguments pr_completion {A} _.
Arguments pr_set {A} _.

Definition page_return {A} (a : A) : PageResult A :=
  {| pr_completion := Normal a; pr_set := [] |}.

Definition page_throw {A} (message : string) : PageResult A :=
  {| pr_completion := Throw message; pr_set := [] |}.

Module Host.

Definition M (A : Type) : Type := World -> Completion A * World.

Definition ret {A} (a : A) : M A := fun w => (Normal a, w).

Definition throw {A} (message : string) : M A := fun w => (Throw message, w).

Definition bind {A B} (m : M A) (k : A -> M B) : M B :=
  fun w =>
    match m w with
    | (Normal a, w') => k a w'
    | (Throw e, w') => (Throw e, w')
    end.

(** [try { body } catch (err) { handler(err?.message) }]. *)
Definition try_catch {A} (body : M A) (handler : string -> M A) : M A :=
  fun w =>
    match body w with
    | (Normal a, w') => (Normal a, w')
    | (Throw e, w') => handler e w'
    end.

(** The index of the next host call. *)
Definition next (w : World) : nat := List.length (w_calls w).

(** A host call [c] completes: it took its latency and [extra]. *)
Definition advance (c : HostCall) (extra : Z) (w : World) : World :=
  {| w_clock := w_clock w + Z.of_nat (w_latency w (next w)) + extra;
     w_calls := c :: w_calls w;
     w_writes := w_writes w;
     w_latency := w_latency w;
     w_dom := w_dom w |}.

Definition record_writes (h : Handle) (sets : list (string * string)) (w : World) : World :=
  {| w_clock := w_clock w;
     w_calls := w_calls w;
     w_writes := (map (fun nv => (h, fst nv, snd nv)) (List.rev sets) ++ w_writes w)%list;
     w_latency := w_latency w;
     w_dom := w_dom w |}.

Definition date_now : M Z :=
  fun w => let w' := advance CallNow 0 w in (Normal (w_clock w'), w').

(** The world once an invocation has read the clock for its deadline. *)
Definition started (w : World) : World := advance CallNow 0 w.

(** The world in which the tick of a round runs: the round has read the
    clock. *)
Definition polled (w : World) : World := advance CallNow 0 w.

(** [await new Promise((r) => setTimeout(r, ms))]. *)
Definition sleep (ms : Z) : M unit :=
  fun w => (Normal tt, advance (CallSleep ms) (Z.max 0 ms) w).

Definition element_handles (l : Locator) : M (list Handle) :=
  fun w => (dom_nodes (w_dom w (next w)) l, advance (CallElementHandles l) 0 w).

Definition count (l : Locator) : M nat :=
  fun w =>
    (match dom_nodes (w_dom w (next w)) l with
     | Normal hs => Normal (List.length hs)
     | Throw e => Throw e
     end,
     advance (CallCount l) 0 w).

Definition window_of (d : Dom) (w : World) : Window :=
  {| win_angular := dom_angular d; win_now := w_clock w |}.

(** Run [fn] in the page on the live element, if the host still has it. *)
Definition run_in_page {A} (d : Dom) (h : Handle)
    (fn : Window -> Element -> PageResult A) : M A :=
  fun w =>
    match dom_element d h with
    | Throw e => (Throw e, w)
    | Normal el =>
        let r := fn (window_of d w) el in
        (pr_completion r, record_writes h (pr_set r) w)
    end.

Definition evaluate {A} (h : Handle) (fn : Window -> Element -> PageResult A) : M A :=
  fun w => run_in_page (w_dom w (next w)) h fn (advance (CallEvaluate h) 0 w).

Definition no_element : string := "locator.evaluate: no element matches the locator".

(** [locator.first().evaluate(fn)]. *)
Definition evaluate_first {A} (l : Locator) (fn : Window -> Element -> PageResult A) : M A :=
  fun w =>
    let d := w_dom w (next w) in
    let w' := advance (CallEvaluateFirst l) 0 w in
    match dom_nodes d l with
    | Throw e => (Throw e, w')
    | Normal [] => (Throw no_element, w')
    | Normal (h :: _) => run_in_page d h fn w'
    end.

End Host.

Notation "'do' x <- c ; k" := (Host.bind c (fun x => k))
  (at level 10, x name, c at level 100, k at level 200, only parsing).

(** ** Loops with fuel

    A [while] loop is the iteration of its round; a round either leaves
    the function with a result, hands over the state of the next round,
    or throws. *)

Inductive LoopStep (S R : Type) : Type :=
| Break (r : R)
| Continue (s : S).
Arguments Break {S R} r.
Arguments Continue {S R} s.

Section Loop.
Context {S R : Type} (round : S -> Host.M (LoopStep S R)).

Fixpoint while_loop (fuel : nat) (s : S) (w : World) : option (Completion R * World) :=
  match fuel with
  | O => None
  | Datatypes.S fuel' =>
      match round s w with
      | (Throw e, w') => Some (Throw e, w')
      | (Normal (Break r), w') => Some (Normal r, w')
      | (Normal (Continue s'), w') => while_loop fuel' s' w'
      end
  end.

(** The state after [k] rounds that all went on to the next one. *)
Fixpoint rounds (k : nat) (s : S) (w : World) : option (S * World) :=
  match k with
  | O => Some (s, w)
  | Datatypes.S k' =>
      match round s w with
      | (Normal (Continue s'), w') => rounds k' s' w'
      | _ => None
      end
  end.
End Loop.

(** A computation, then a loop on what it returned. *)
Definition and_then {A R} (m : Host.M A)
    (k : A -> World -> option (Completion R * World)) :
    World -> option (Completion R * World) :=
  fun w =>
    match m w with
    | (Normal a, w') => k a w'
    | (Throw e, w') => Some (Throw e, w')
    end.

(** ** The scope readers *)

Module Reader.
Import Json.

(** Why a read of the model value of an element fails. *)
Inductive EvalFailure : Type :=
| NoAttribute
| HostFrameworkAbsent
| ScopeUnavailable
| EvaluationThrew (error : string).

(** The in-page function of [getNgModelValue]. *)
Definition ng_model_value (win : Window) (element : Element) : PageResult JsValue :=
  match el_ng_model element with
  | None => page_throw "Element does not have ng-model attribute"
  | Some ngModel =>
      if bool_decide (ngModel = "") then
        page_throw "Element does not have ng-model attribute"
      else if negb (win_angular win) then
        page_throw "AngularJS is not loaded on the page"
      else
        match el_scope element with
        | None => page_throw "Could not find AngularJS scope for element"
        | Some scope =>
            match scope_eval scope with
            | None => page_throw "Could not find AngularJS scope for element"
            | Some eval =>
                match eval ngModel with
                | Normal v => page_return v
                | Throw error =>
                    page_throw ("Failed to evaluate ng-model " ++ dquote ++ ngModel
                                ++ dquote ++ " via $eval: " ++ error)
                end
            end
        end
  end.

Definition getNgModelValue (l : Locator) : Host.M JsValue :=
  Host.evaluate_first l ng_model_value.

(** The in-page function the resolver runs on each handle. *)
Definition candidate_value (win : Window) (el : Element) : PageResult JsValue :=
  match el_ng_model el with
  | None => page_return JUndefined
  | Some ngModelAttr =>
      if bool_decide (ngModelAttr = "") then page_return JUndefined
      else if negb (win_angular win) then page_return JUndefined
      else
        match el_scope el with
        | None => page_return JUndefined
        | Some scope =>
            match scope_eval scope with
            | None => page_return JUndefined
            | Some eval =>
                match eval ngModelAttr with
                | Normal v => page_return v
                | Throw _ => page_return JUndefined
                end
            end
        end
  end.

(** The first check of the readers that an element fails, if any. *)
Definition read_failure (win : Window) (el : Element) : option EvalFailure :=
  match el_ng_model el with
  | None => Some NoAttribute
  | Some path =>
      if bool_decide (path = "") then Some NoAttribute
      else if negb (win_angular win) then Some HostFrameworkAbsent
      else
        match el_scope el with
        | None => Some ScopeUnavailable
        | Some scope =>
            match scope_eval scope with
            | None => Some ScopeUnavailable
            | Some eval =>
                match eval path with
                | Normal _ => None
                | Throw error => Some (EvaluationThrew error)
                end
            end
        end
  end.

(** The message of a failed evaluation. *)
Definition failed_to_evaluate (path via error : string) : string :=
  "Failed to evaluate ng-model " ++ dquote ++ path ++ dquote ++ via ++ error.

End Reader.

(** ** The first revision of the reader: walking the path *)

Module Legacy.
Import Json.

(** [s.split('.')]. *)
Fixpoint split_dot (s : string) : list string :=
  match s with
  | EmptyString => [""]
  | String c s' =>
      match split_dot s' with
      | [] => [String c ""]
      | seg :: segs =>
          if Ascii.eqb c "." then "" :: seg :: segs
          else String c seg :: segs
      end
  end.

Fixpoint lookup_prop (key : string) (props : list (string * JsValue)) : JsValue :=
  match props with
  | [] => JUndefined
  | (k, v) :: props' => if bool_decide (k = key) then v else lookup_prop key props'
  end.

Fixpoint lookup_index (key : string) (i : nat) (elems : list JsValue) : JsValue :=
  match elems with
  | [] => JUndefined
  | x :: elems' =>
      if bool_decide (number_to_string (Z.of_nat i) = key) then x
      else lookup_index key (Datatypes.S i) elems'
  end.

(** [value[key]]: own properties of objects, elements and [length] of
    arrays, [length] of strings; it throws on [null] and [undefined]. *)
Definition get_prop (value : JsValue) (key : string) : Completion JsValue :=
  match value with
  | JUndefined => Throw "TypeError: Cannot read properties of undefined"
  | JNull => Throw "TypeError: Cannot read properties of null"
  | JObj props => Normal (lookup_prop key props)
  | JArr elems =>
      if bool_decide (key = "length") then Normal (JNum (Z.of_nat (List.length elems)))
      else Normal (lookup_index key 0 elems)
  | JStr s =>
      if bool_decide (key = "length") then Normal (JNum (Z.of_nat (String.length s)))
      else Normal JUndefined
  | JBool _ | JNum _ => Normal JUndefined
  end.

(** [for (const key of path) { value = value[key]; if (value === undefined) return undefined; }
    return value;] *)
Fixpoint walk (value : JsValue) (path : list string) : Completion JsValue :=
  match path with
  | [] => Normal value
  | key :: path' =>
      match get_prop value key with
      | Throw e => Throw e
      | Normal JUndefined => Normal JUndefined
      | Normal value' => walk value' path'
      end
  end.

(** The in-page function of the first [getNgModelValue]. *)
Definition ng_model_value (win : Window) (element : Element) : PageResult JsValue :=
  match el_ng_model element with
  | None => page_throw "Element does not have ng-model attribute"
  | Some ngModel =>
      if bool_decide (ngModel = "") then
        page_throw "Element does not have ng-model attribute"
      else if negb (win_angular win) then
        page_throw "AngularJS is not loaded on the page"
      else
        match el_scope element with
        | None => page_throw "Could not find AngularJS scope for element"
        | Some scope =>
            match walk (scope_self scope) (split_dot ngModel) with
            | Normal v => page_return v
            | Throw error =>
                page_throw ("Failed to evaluate ng-model " ++ dquote ++ ngModel
                            ++ dquote ++ ": " ++ error)
            end
        end
  end.

End Legacy.

(** ** The value-filtered resolver *)

Module Resolver.
Import Json Host.

Definition timeout : Z := 5000.
Definition pollInterval : Z := 100.

(** The selector of [getByNgModel]: [[ng-model="..."]]. *)
Definition ng_model_selector (ngModel : string) : string :=
  "[ng-model=" ++ dquote ++ ngModel ++ dquote ++ "]".

Definition getByNgModel (root : Locator) (ngModel : string) : Locator :=
  locator root (ng_model_selector ngModel).

Definition tempAttr : string := "data-pw-ng-temp".

Definition tempId (index : nat) (now : Z) : string :=
  "pw-ng-temp-" ++ number_to_string (Z.of_nat index) ++ "-" ++ number_to_string now.

Definition temp_selector (index : nat) (now : Z) : string :=
  "[" ++ tempAttr ++ "=" ++ dquote ++ tempId index now ++ dquote ++ "]".

(** The in-page function that gives a matching element a selector of
    its own: its id, or a marker attribute written on it. *)
Definition unique_id (index : nat) (win : Window) (el : Element) : PageResult string :=
  if bool_decide (el_id el = "") then
    {| pr_completion := Normal (temp_selector index (win_now win));
       pr_set := [(tempAttr, tempId index (win_now win))] |}
  else page_return ("#" ++ el_id el).

(** One candidate: the body of the [for] loop, [try] and [catch]
    included. *)
Definition candidate (value : JsValue) (h : Handle) (i : nat)
    (matchingSelectors : list string) : M (list string) :=
  try_catch
    (do actualValue <- evaluate h Reader.candidate_value;
     if Equality actualValue value then
       do uniqueId <- evaluate h (unique_id i);
       ret (matchingSelectors ++ [uniqueId])%list
     else ret matchingSelectors)
    (fun _ => ret matchingSelectors).

(** [for (let i = 0; i < handles.length; i++)], from index [i] on. *)
Fixpoint scan (value : JsValue) (handles : list Handle) (i : nat)
    (matchingSelectors : list string) : M (list string) :=
  match handles with
  | [] => ret matchingSelectors
  | h :: handles' =>
      do matchingSelectors' <- candidate value h i matchingSelectors;
      scan value handles' (S i) matchingSelectors'
  end.

(** One tick, up to the selectors of the candidates it kept. *)
Definition tick (root : Locator) (ngModel : string) (value : JsValue) : M (list string) :=
  let allElements := locator root (ng_model_selector ngModel) in
  do handles <- element_handles allElements;
  scan value handles 0 [].

Definition no_match : string :=
  "[data-pw-ng-no-match=" ++ dquote ++ "true" ++ dquote ++ "]".

(** One round of [while (Date.now() <= deadline)]; the [return] after
    the loop is the round that finds the deadline passed. *)
Definition round (root : Locator) (ngModel : string) (value : JsValue) (deadline : Z)
    (_ : unit) : M (LoopStep unit Locator) :=
  do now <- date_now;
  if now <=? deadline then
    do matchingSelectors <- tick root ngModel value;
    if (0 <? List.length matchingSelectors)%nat then
      let combinedSelector := Str.join ", " matchingSelectors in
      ret (Break (locator root combinedSelector))
    else
      do _ <- sleep pollInterval;
      ret (Continue tt)
  else ret (Break (locator root no_match)).

Definition getByNgModelValue (fuel : nat) (root : Locator) (ngModel : string)
    (value : JsValue) : World -> option (Completion Locator * World) :=
  and_then date_now (fun start =>
    let deadline := start + timeout in
    while_loop (round root ngModel value deadline) fuel tt).

(** The world after the sleep that ends a round. *)
Definition slept (w : World) : World := advance (CallSleep pollInterval) pollInterval w.

(** The deadline of the invocation made in [w]. *)
Definition deadline_of (w : World) : Z := w_clock (started w) + timeout.

(** The world in which the in-page function of [handle.evaluate] runs. *)
Definition evaluating (h : Handle) (w : World) : World := advance (CallEvaluate h) 0 w.

End Resolver.

(** ** The matcher *)

Module Matcher.
Import Json Host.

Record Options : Type := { opt_timeout : option Z }.

Record Outcome : Type := {
  pass : bool;
  message : string;
  name : string;
  expected : JsValue;
  actual : JsValue;
}.

(** The two variables the loop assigns. *)
Record Seen : Type := {
  lastActual : JsValue;
  lastErrorMessage : option string;
}.

Definition assertionName : string := "toHaveNgValue".
Definition pollInterval : Z := 50.

(** [options?.timeout ?? 5000]. *)
Definition timeout_of (options : option Options) : Z :=
  match options with
  | Some {| opt_timeout := Some t |} => t
  | _ => 5000
  end.

Definition newline : string := String (ascii_of_N 10) "".

Definition strict_outcome (expected : JsValue) (count : nat) : Outcome :=
  let n := number_to_string (Z.of_nat count) in
  {| pass := false;
     message := "Error: strict mode violation: locator resolved to " ++ n
                ++ " elements, but expected 1";
     name := assertionName;
     expected := expected;
     actual := JStr ("Found " ++ n ++ " elements") |}.

Definition pass_outcome (expected actual : JsValue) : Outcome :=
  {| pass := true;
     message := "Expected ng-model not to have value: " ++ template expected
                ++ newline ++ "Received: " ++ template actual;
     name := assertionName;
     expected := expected;
     actual := actual |}.

(** [typeof lastActual === 'undefined' ? `No value (last error: ...)`
    : JSON.stringify(lastActual)]. *)
Definition receivedStr (seen : Seen) : string :=
  match lastActual seen with
  | JUndefined =>
      "No value (last error: " ++ default "unknown" (lastErrorMessage seen) ++ ")"
  | v => template v
  end.

Definition timeout_outcome (expected : JsValue) (seen : Seen) : Outcome :=
  {| pass := false;
     message := "Expected ng-model to have value: " ++ template expected
                ++ newline ++ "Received: " ++ receivedStr seen;
     name := assertionName;
     expected := expected;
     actual := lastActual seen |}.

(** [lastErrorMessage = err?.message]. *)
Definition with_error (seen : Seen) (message : string) : Seen :=
  {| lastActual := lastActual seen; lastErrorMessage := Some message |}.

(** [lastActual = actual]. *)
Definition with_actual (seen : Seen) (v : JsValue) : Seen :=
  {| lastActual := v; lastErrorMessage := lastErrorMessage seen |}.

(** The [try] block of one tick and its [catch]. *)
Definition attempt (l : Locator) (expected : JsValue) (seen : Seen) :
    M (LoopStep Seen Outcome) :=
  try_catch
    (do count <- Host.count l;
     if (1 <? count)%nat then ret (Break (strict_outcome expected count))
     else
       do actual <- Reader.getNgModelValue l;
       let seen := with_actual seen actual in
       if Equality actual expected then ret (Break (pass_outcome expected actual))
       else ret (Continue seen))
    (fun err_message => ret (Continue (with_error seen err_message))).

Definition round (l : Locator) (expected : JsValue) (deadline : Z) (seen : Seen) :
    M (LoopStep Seen Outcome) :=
  do now <- date_now;
  if now <=? deadline then
    do step <- attempt l expected seen;
    match step with
    | Break outcome => ret (Break outcome)
    | Continue seen' =>
        do _ <- sleep pollInterval;
        ret (Continue seen')
    end
  else ret (Break (timeout_outcome expected seen)).

Definition nothing_seen : Seen :=
  {| lastActual := JUndefined; lastErrorMessage := None |}.

Definition toHaveNgValue (fuel : nat) (l : Locator) (expected : JsValue)
    (options : option Options) : World -> option (Completion Outcome * World) :=
  and_then date_now (fun start =>
    let deadline := start + timeout_of options in
    while_loop (round l expected deadline) fuel nothing_seen).

(** The world after the sleep that ends a round. *)
Definition slept (w : World) : World := advance (CallSleep pollInterval) pollInterval w.

(** The deadline of the invocation made in [w]. *)
Definition deadline_of (options : option Options) (w : World) : Z :=
  w_clock (started w) + timeout_of options.

End Matcher.

(** ** The installer *)

Module Install.

(** The functions the installer creates. *)
Inductive Code : Type :=
| PageGetByNgModel (page : nat)
| PageGetByNgModelValue (page : nat)
| LocatorGetByNgModel
| LocatorGetByNgModelValue.

(** A property holds a function object, which has an identity, or some
    other value. *)
Inductive Property : Type :=
| Function (id : nat) (code : Code)
| Value (v : JsValue).

Definition truthy (v : JsValue) : bool :=
  match v with
  | JUndefined | JNull | JBool false => false
  | JNum n => negb (n =? 0)
  | JStr s => negb (bool_decide (s = ""))
  | _ => true
  end.

Definition is_truthy (p : option Property) : bool :=
  match p with
  | None => false
  | Some (Function _ _) => true
  | Some (Value v) => truthy v
  end.

Record Runtime : Type := {
  next_function : nat;                             (* identity of the next function object *)
  locator_prototype : gmap string Property;        (* shared by every locator *)
  pages : gmap nat (gmap string Property);         (* own properties of each page object *)
}.

Definition set_page (page : nat) (key : string) (p : Property) (rt : Runtime) : Runtime :=
  {| next_function := next_function rt;
     locator_prototype := locator_prototype rt;
     pages := <[page := <[key := p]> (default ∅ (pages rt !! page))]> (pages rt) |}.

Definition set_prototype (key : string) (p : Property) (rt : Runtime) : Runtime :=
  {| next_function := next_function rt;
     locator_prototype := <[key := p]> (locator_prototype rt);
     pages := pages rt |}.

(** A function expression is evaluated: a new function object. *)
Definition new_function (code : Code) (rt : Runtime) : Property * Runtime :=
  (Function (next_function rt) code,
   {| next_function := S (next_function rt);
      locator_prototype := locator_prototype rt;
      pages := pages rt |}).

Definition installAngularjsExtensions (page : nat) (rt : Runtime) : Runtime :=
  let '(f1, rt) := new_function (PageGetByNgModel page) rt in
  let rt := set_page page "getByNgModel" f1 rt in
  let '(f2, rt) := new_function (PageGetByNgModelValue page) rt in
  let rt := set_page page "getByNgModelValue" f2 rt in
  let locatorPrototype := locator_prototype rt in
  if is_truthy (locatorPrototype !! "getByNgModel") then rt
  else
    let '(f3, rt) := new_function LocatorGetByNgModel rt in
    let rt := set_prototype "getByNgModel" f3 rt in
    let '(f4, rt) := new_function LocatorGetByNgModelValue rt in
    set_prototype "getByNgModelValue" f4 rt.

End Install.

(** ** The earlier revisions

    The first revision walks the model path in both of its readers; the
    second calls [$eval] and resolves, asserts and installs in one pass,
    without polling and without the locator prototype. *)

Module Earlier.
Import Json Host.

(** [value?.[key]]. *)
Definition get_prop_chained (value : JsValue) (key : string) : JsValue :=
  match value with
  | JUndefined | JNull => JUndefined
  | _ =>
      match Legacy.get_prop value key with
      | Normal v => v
      | Throw _ => JUndefined
      end
  end.

(** [for (const key of path) { value = value?.[key];
    if (value === undefined) return undefined; } return value;] *)
Fixpoint walk_chained (value : JsValue) (path : list string) : JsValue :=
  match path with
  | [] => value
  | key :: path' =>
      match get_prop_chained value key with
      | JUndefined => JUndefined
      | value' => walk_chained value' path'
      end
  end.

(** The in-page function the first resolver runs on each handle. *)
Definition candidate_value (win : Window) (el : Element) : PageResult JsValue :=
  match el_ng_model el with
  | None => page_return JUndefined
  | Some ngModel =>
      if bool_decide (ngModel = "") then page_return JUndefined
      else if negb (win_angular win) then page_return JUndefined
      else
        match el_scope el with
        | None => page_return JUndefined
        | Some scope =>
            page_return (walk_chained (scope_self scope) (Legacy.split_dot ngModel))
        end
  end.

(** The resolver of the second revision: the elements of the page are
    scanned once; the loop over the handles is the one the polling
    resolver still has. *)
Definition getByNgModelValue (ngModel : string) (value : JsValue) : M Locator :=
  let allElements := locator [] (Resolver.ng_model_selector ngModel) in
  do handles <- element_handles allElements;
  do matchingSelectors <- Resolver.scan value handles 0 [];
  if (List.length matchingSelectors =? 0)%nat then
    ret (locator [] Resolver.no_match)
  else ret (locator [] (Str.join ", " matchingSelectors)).

(** What the matcher of the second revision returns; the result built in
    its [catch] has neither [expected] nor [actual]. *)
Record Result : Type := {
  pass : bool;
  message : string;
  name : string;
  expected : option JsValue;
  actual : option JsValue;
}.

Definition toHaveNgValue (l : Locator) (expected : JsValue) : M Result :=
  try_catch
    (do actual <- Reader.getNgModelValue l;
     let pass := Equality actual expected in
     ret {| pass := pass;
            message := "Expected ng-model " ++ (if pass then "not " else "")
                       ++ "to have value: " ++ template expected
                       ++ Matcher.newline ++ "Received: " ++ template actual;
            name := "toHaveNgValue";
            expected := Some expected;
            actual := Some actual |})
    (fun error_message =>
       ret {| pass := false;
              message := "Failed to evaluate ng-model: " ++ error_message;
              name := "toHaveNgValue";
              expected := None;
              actual := None |}).

(** The installer of the second revision: the page object only. *)
Definition installAngularjsExtensions (page : nat) (rt : Install.Runtime) :
    Install.Runtime :=
  let '(f1, rt) := Install.new_function (Install.PageGetByNgModel page) rt in
  let rt := Install.set_page page "getByNgModel" f1 rt in
  let '(f2, rt) := Install.new_function (Install.PageGetByNgModelValue page) rt in
  Install.set_page page "getByNgModelValue" f2 rt.

End Earlier.

(** * The notions the statements are phrased in

    ** The shape of values *)

Module Shape.

(** No [undefined] anywhere: the values [JSON.stringify] can render
    in full. *)
Fixpoint json_shaped (v : JsValue) : bool :=
  match v with
  | JUndefined => false
  | JArr l => forallb json_shaped l
  | JObj l => forallb (fun kv => json_shaped (snd kv)) l
  | _ => true
  end.

Fixpoint find_prop (key : string) (props : list (string * JsValue)) : option JsValue :=
  match props with
  | [] => None
  | (k, v) :: props' => if bool_decide (k = key) then Some v else find_prop key props'
  end.

(** Equality of values up to the order of the properties of objects:
    what the specification calls structural equality. *)
Fixpoint structural_eq (a b : JsValue) : bool :=
  match a, b with
  | JUndefined, JUndefined => true
  | JNull, JNull => true
  | JBool x, JBool y => bool_decide (x = y)
  | JNum x, JNum y => bool_decide (x = y)
  | JStr x, JStr y => bool_decide (x = y)
  | JArr la, JArr lb =>
      (fix each (la lb : list JsValue) : bool :=
         match la, lb with
         | [], [] => true
         | x :: la', y :: lb' => structural_eq x y && each la' lb'
         | _, _ => false
         end) la lb
  | JObj la, JObj lb =>
      bool_decide (List.length la = List.length lb)
      && forallb (fun kv =>
                    match find_prop (fst kv) lb with
                    | Some y => structural_eq (snd kv) y
                    | None => false
                    end) la
  | _, _ => false
  end.

End Shape.

(** ** What the rounds of the matcher observed *)

Module History.
Import Json Host Matcher.

Inductive Observed : Type :=
| Read (v : JsValue)            (* the read returned [v] *)
| Failed (message : string).    (* the count or the read threw *)

(** What the attempt of the round that starts in [w] observes; nothing
    when the locator resolves to more than one element. *)
Definition observe (l : Locator) (w : World) : option Observed :=
  match count l (polled w) with
  | (Throw e, _) => Some (Failed e)
  | (Normal n, w1) =>
      if (1 <? n)%nat then None
      else
        match Reader.getNgModelValue l w1 with
        | (Normal v, _) => Some (Read v)
        | (Throw e, _) => Some (Failed e)
        end
  end.

(** The observations of [k] rounds that went on, oldest first. *)
Fixpoint observed (l : Locator) (expected : JsValue) (deadline : Z) (k : nat)
    (seen : Seen) (w : World) : list Observed :=
  match k with
  | O => []
  | S k' =>
      match observe l w, round l expected deadline seen w with
      | Some o, (Normal (Continue seen'), w') =>
          o :: observed l expected deadline k' seen' w'
      | _, _ => []
      end
  end.

(** The value of the latest read that returned. *)
Fixpoint last_read (obs : list Observed) : option JsValue :=
  match obs with
  | [] => None
  | o :: obs' =>
      match last_read obs' with
      | Some v => Some v
      | None => match o with Read v => Some v | Failed _ => None end
      end
  end.

(** The message of the latest failure. *)
Fixpoint last_failure (obs : list Observed) : option string :=
  match obs with
  | [] => None
  | o :: obs' =>
      match last_failure obs' with
      | Some e => Some e
      | None => match o with Read _ => None | Failed e => Some e end
      end
  end.

Definition note (seen : Seen) (o : Observed) : Seen :=
  match o with
  | Read v => with_actual seen v
  | Failed e => with_error seen e
  end.

End History.

(** ** Runs of the resolver in which nothing matches *)

Module Quiet.
Import Json Host Resolver.

(** Every host call is immediate: only sleeping takes time. *)
Definition ideal (w : World) : Prop := forall k, w_latency w k = O.

(** No tick of the invocation keeps a candidate: every tick it polls
    collects no selector. *)
Definition nothing_kept (root : Locator) (ngModel : string) (value : JsValue)
    (w : World) : Prop :=
  forall k wk,
    rounds (round root ngModel value (deadline_of w)) k tt (started w) = Some (tt, wk) ->
    w_clock (polled wk) <= deadline_of w ->
    fst (tick root ngModel value (polled wk)) = Normal [].

(** No element of the page ever holds the target value, and the page
    can always be queried. *)
Definition never_equal (root : Locator) (ngModel : string) (value : JsValue)
    (w : World) : Prop :=
  forall k,
    (exists hs, dom_nodes (w_dom w k) (getByNgModel root ngModel) = Normal hs)
    /\ forall h el win v,
         dom_element (w_dom w k) h = Normal el ->
         win_angular win = dom_angular (w_dom w k) ->
         pr_completion (Reader.candidate_value win el) = Normal v ->
         Equality v value = false.


(** The selector [uid] was given to the handle [h] after a read of it
    that was [Equality]-equal to the target. *)
Definition kept_of (value : JsValue) (h : Handle) (uid : string) : Prop :=
  exists i w0 v w1,
    evaluate h Reader.candidate_value w0 = (Normal v, w1)
    /\ Equality v value = true
    /\ fst (evaluate h (unique_id i) w1) = Normal uid.

End Quiet.

(** ** What a computation leaves behind: host calls and attributes *)

Module Footprint.
Import Host.

(** From [w] to [w'] the calls made all satisfy [P] and the attributes
    set all satisfy [Q]; nothing on record was lost. *)
Definition grows (P : HostCall -> Prop) (Q : Handle * string * string -> Prop)
    (w w' : World) : Prop :=
  (exists calls, w_calls w' = (calls ++ w_calls w)%list /\ Forall P calls)
  /\ (exists writes, w_writes w' = (writes ++ w_writes w)%list /\ Forall Q writes).

(** The attribute written is the marker of the resolver. *)
Definition is_marker (wr : Handle * string * string) : Prop :=
  snd (fst wr) = Resolver.tempAttr /\ exists i t, snd wr = Resolver.tempId i t.

Definition no_write (wr : Handle * string * string) : Prop := False.

(** The host calls of the polling resolver. *)
Definition resolver_call (root : Locator) (ngModel : string) (c : HostCall) : Prop :=
  match c with
  | CallNow => True
  | CallSleep ms => ms = Resolver.pollInterval
  | CallElementHandles l => l = Resolver.getByNgModel root ngModel
  | CallEvaluate _ => True
  | _ => False
  end.

(** The host calls of the one-pass resolver: no clock, no sleep. *)
Definition one_pass_call (ngModel : string) (c : HostCall) : Prop :=
  match c with
  | CallElementHandles l => l = Resolver.getByNgModel [] ngModel
  | CallEvaluate _ => True
  | _ => False
  end.

(** The host calls of the matcher, all on its locator. *)
Definition matcher_call (l : Locator) (c : HostCall) : Prop :=
  match c with
  | CallNow => True
  | CallSleep ms => ms = Matcher.pollInterval
  | CallCount l' => l' = l
  | CallEvaluateFirst l' => l' = l
  | _ => False
  end.

End Footprint.

(** * Sample pages

    Small pages, values and worlds on which the definitions run. *)

Module Sample.
Import Json Host.

(** An [$eval] that resolves dotted paths in a model, giving
    [undefined] for what is not there. *)
Definition eval_in (model : JsValue) (path : string) : Completion JsValue :=
  match Legacy.walk model (Legacy.split_dot path) with
  | Normal v => Normal v
  | Throw _ => Normal JUndefined
  end.

Definition scope_on (model : JsValue) : Scope :=
  {| scope_eval := Some (eval_in model); scope_self := model |}.

(** A scope object without [$eval]. *)
Definition bare_scope (model : JsValue) : Scope :=
  {| scope_eval := None; scope_self := model |}.

Definition input (id path : string) (scope : option Scope) : Element :=
  {| el_id := id; el_ng_model := Some path; el_scope := scope |}.

Definition selects (selector : string) (el : Element) : bool :=
  match el_ng_model el with
  | Some path => bool_decide (selector = Resolver.ng_model_selector path)
  | None => false
  end.

Fixpoint matching (selector : string) (h : Handle) (els : list Element) : list Handle :=
  match els with
  | [] => []
  | el :: els' =>
      if selects selector el then h :: matching selector (S h) els'
      else matching selector (S h) els'
  end.

(** A page holding [els]; a handle is a position in [els]. *)
Definition page (angular : bool) (els : list Element) : Dom :=
  {| dom_angular := angular;
     dom_nodes := fun l =>
       match List.last (map Some l) None with
       | Some selector => Normal (matching selector O els)
       | None => Normal []
       end;
     dom_element := fun h =>
       match nth_error els h with
       | Some el => Normal el
       | None => Throw "Element is not attached to the DOM"
       end |}.

Definition world (start : Z) (latency : nat -> nat) (dom : nat -> Dom) : World :=
  {| w_clock := start; w_calls := []; w_writes := [];
     w_latency := latency; w_dom := dom |}.

Definition user (name : JsValue) : JsValue := JObj [("user", JObj [("name", name)])].

(** One input bound to [user.name], which holds "Ann". *)
Definition ann_page : Dom :=
  page true [input "" "user.name" (Some (scope_on (user (JStr "Ann"))))].

(** The same input before AngularJS is loaded. *)
Definition unloaded_page : Dom :=
  page false [input "" "user.name" None].

(** The input once the model holds no name. *)
Definition unset_page : Dom :=
  page true [input "" "user.name" (Some (scope_on (JObj [("user", JObj [])])))].

(** Two radio buttons bound to [user.role]. *)
Definition radio_page : Dom :=
  let scope := Some (scope_on (JObj [("user", JObj [("role", JStr "guest")])])) in
  page true [input "" "user.role" scope; input "" "user.role" scope].

Definition name_locator : Locator := Resolver.getByNgModel [] "user.name".
Definition role_locator : Locator := Resolver.getByNgModel [] "user.role".

Definition ab : JsValue := JObj [("a", JNum 1); ("b", JNum 2)].
Definition ba : JsValue := JObj [("b", JNum 2); ("a", JNum 1)].

Definition nested : JsValue :=
  JObj [("name", JStr "Ann"); ("tags", JArr [JNum 1; JNull; JBool true])].

(** A runtime in which nothing is installed. *)
Definition fresh : Install.Runtime :=
  {| Install.next_function := 0; Install.locator_prototype := ∅; Install.pages := ∅ |}.

Definition loaded : Window := {| win_angular := true; win_now := 0 |}.

(** An input whose scope object holds [user.name] but exposes no
    [$eval]. *)
Definition plain_input : Element :=
  input "" "user.name" (Some (bare_scope (user (JStr "Ann")))).

Definition ann_input : Element :=
  input "" "user.name" (Some (scope_on (user (JStr "Ann")))).

(** The model holds "Ann" throughout. *)
Definition ann_world : World := world 1000 (fun _ => O) (fun _ => ann_page).

(** Two inputs bound to [user.name]. *)
Definition twin_page : Dom :=
  let scope := Some (scope_on (user (JStr "Ann"))) in
  page true [input "" "user.name" scope; input "" "user.name" scope].

(** A second input appears while the matcher waits for "Bob". *)
Definition twin_world : World :=
  world 1000 (fun _ => O) (fun k => if (k <? 5)%nat then ann_page else twin_page).

Definition twin_tick : World :=
  Matcher.slept (snd (Matcher.attempt name_locator (JStr "Bob") Matcher.nothing_seen
                       (polled (started twin_world)))).

(** The page while AngularJS loads: first not there, then there with no
    name in the model. *)
Definition loading_world : World :=
  world 1000 (fun _ => O) (fun k => if (k <? 4)%nat then unloaded_page else unset_page).

Definition within_60 : option Matcher.Options := Some {| Matcher.opt_timeout := Some 60 |}.

Definition ann_after_two : World :=
  Matcher.slept
    (snd (Matcher.attempt name_locator (JStr "Bob")
            (Matcher.with_actual Matcher.nothing_seen (JStr "Ann"))
            (polled (Matcher.slept
                       (snd (Matcher.attempt name_locator (JStr "Bob") Matcher.nothing_seen
                               (polled (started ann_world)))))))).

(** A page the host can no longer reach: every query throws. *)
Definition closed_page : Dom :=
  {| dom_angular := false;
     dom_nodes := fun _ => Throw "Target page, context or browser has been closed";
     dom_element := fun _ => Throw "Target page, context or browser has been closed" |}.

Definition closed_world : World := world 1000 (fun _ => O) (fun _ => closed_page).

(** Two inputs bound to [user.name], the first with an id. *)
Definition pair_page (name : string) : Dom :=
  let scope := Some (scope_on (user (JStr name))) in
  page true [input "first" "user.name" scope; input "" "user.name" scope].

(** The name becomes "Bob" while the resolver waits for it. *)
Definition renamed_world : World :=
  world 1000 (fun _ => O) (fun k => if (k <? 6)%nat then pair_page "Ann" else pair_page "Bob").

Definition renamed_tick : World :=
  Resolver.slept (snd (Resolver.tick [] "user.name" (JStr "Bob") (polled (started renamed_world)))).

(** The input before AngularJS is loaded. *)
Definition unloaded_world : World := world 1000 (fun _ => O) (fun _ => unloaded_page).

(** A page whose one candidate is gone by the time it is evaluated. *)
Definition detached_page : Dom :=
  {| dom_angular := true;
     dom_nodes := fun _ => Normal [O];
     dom_element := fun _ => Throw "Element is not attached to the DOM" |}.

Definition detached_world : World := world 1000 (fun _ => O) (fun _ => detached_page).

Definition radio_world : World := world 1000 (fun _ => O) (fun _ => radio_page).

Definition already_late : option Matcher.Options := Some {| Matcher.opt_timeout := Some (-1) |}.

(** The clock moves by a millisecond at every host call. *)
Definition ticking_world : World := world 1000 (fun _ => 1%nat) (fun _ => ann_page).

Definition at_once : option Matcher.Options := Some {| Matcher.opt_timeout := Some 0 |}.


(** One input bound to [cfg], which holds the mapping [ab]. *)
Definition ab_page : Dom :=
  page true [input "" "cfg" (Some (scope_on (JObj [("cfg", ab)])))].

Definition ab_world : World := world 1000 (fun _ => O) (fun _ => ab_page).

Definition cfg_locator : Locator := Resolver.getByNgModel [] "cfg".

End Sample.

(** * Facts

    ** Strings *)

Module StrFacts.
Import Str.

Lemma app_cons (x : ascii) (a b : string) : String x a ++ b = String x (a ++ b).
Proof. reflexivity. Qed.

Lemma app_nil_l (a : string) : "" ++ a = a.
Proof. reflexivity. Qed.

Lemma app_assoc (a b c : string) : (a ++ b) ++ c = a ++ (b ++ c).
Proof.
  induction a as [|x a IH]; [reflexivity|].
  rewrite !app_cons. now rewrite IH.
Qed.

Lemma app_nil_r (a : string) : a ++ "" = a.
Proof.
  induction a as [|x a IH]; [reflexivity|]. rewrite app_cons. now rewrite IH.
Qed.

Lemma app_inv_head (a b c : string) : a ++ b = a ++ c -> b = c.
Proof.
  induction a as [|x a IH]; [auto|]. rewrite !app_cons. intros H. inversion H; auto.
Qed.

Lemma all_app p a b : all p (a ++ b) = all p a && all p b.
Proof.
  induction a as [|x a IH]; [reflexivity|]. rewrite app_cons. simpl.
  rewrite IH. now destruct (p x).
Qed.

(** A run of [p]-characters followed by something that stops it is
    determined by the whole string. *)
Lemma run_inj p (a b r1 r2 : string) :
  all p a = true -> all p b = true ->
  stops p r1 = true -> stops p r2 = true ->
  a ++ r1 = b ++ r2 -> a = b /\ r1 = r2.
Proof.
  revert b. induction a as [|x a IH]; intros [|y b];
    rewrite ?app_cons, ?app_nil_l; simpl; intros Ha Hb H1 H2 E.
  - auto.
  - subst r1. simpl in H1. apply andb_prop in Hb as [Hy _].
    rewrite Hy in H1. discriminate.
  - subst r2. simpl in H2. apply andb_prop in Ha as [Hx _].
    rewrite Hx in H2. discriminate.
  - apply andb_prop in Ha as [_ Ha]. apply andb_prop in Hb as [_ Hb].
    inversion E; subst. destruct (IH b Ha Hb H1 H2 H3) as [-> ->]. auto.
Qed.

End StrFacts.

(** ** [JSON.stringify] determines a JSON-shaped value *)

Module JsonFacts.
Import Str StrFacts Json Shape.

Lemma JsValue_nested_ind (P : JsValue -> Prop) :
  P JUndefined -> P JNull -> (forall b, P (JBool b)) -> (forall n, P (JNum n)) ->
  (forall s, P (JStr s)) ->
  (forall l, Forall P l -> P (JArr l)) ->
  (forall l, Forall (fun kv => P (snd kv)) l -> P (JObj l)) ->
  forall v, P v.
Proof.
  intros Hu Hn Hb Hz Hs Ha Ho. fix IH 1.
  intros [ | |b|n|s|l|l];
    [exact Hu | exact Hn | apply Hb | apply Hz | apply Hs | |].
  - apply Ha. induction l as [|x l IHl]; constructor; [apply IH | exact IHl].
  - apply Ho. induction l as [|[k x] l IHl]; constructor; [apply IH | exact IHl].
Qed.

(** *** Numbers *)

Definition num_char (c : ascii) : bool :=
  let n := N_of_ascii c in ((48 <=? n) && (n <=? 57) || (n =? 45))%N.

Lemma uint_chars d : all num_char (DecimalString.NilEmpty.string_of_uint d) = true.
Proof. induction d; simpl; auto. Qed.

Lemma number_chars n : all num_char (number_to_string n) = true.
Proof.
  unfold number_to_string.
  destruct (Z.to_int n) as [d|d]; simpl;
    (destruct d; [reflexivity | apply (uint_chars (_ _))..]).
Qed.

Lemma number_nonempty n : exists c s, number_to_string n = String c s.
Proof.
  unfold number_to_string.
  destruct (Z.to_int n) as [d|d]; simpl; destruct d; simpl; eauto.
Qed.

Lemma number_inj a b : number_to_string a = number_to_string b -> a = b.
Proof.
  unfold number_to_string. intros E.
  apply DecimalZ.to_int_inj.
  assert (Hnn : forall z, Z.to_int z <> Decimal.Pos Decimal.Nil
                          /\ Z.to_int z <> Decimal.Neg Decimal.Nil).
  { intros [|p|p]; simpl; split; try discriminate;
      intros [= H]; exact (DecimalPos.Unsigned.to_uint_nonnil _ H). }
  destruct (Hnn a) as [Ha1 Ha2], (Hnn b) as [Hb1 Hb2].
  pose proof (DecimalString.NilZero.isi _ Ha1 Ha2) as Ia.
  pose proof (DecimalString.NilZero.isi _ Hb1 Hb2) as Ib.
  rewrite E in Ia. rewrite Ia in Ib. now inversion Ib.
Qed.

(** *** Quoted strings *)

Definition hex_value (c : ascii) : N :=
  let n := N_of_ascii c in
  if (n <? 58)%N then (n - 48)%N else (n - 87)%N.

(** Reads back one escaped code unit. *)
Definition unescape_head (s : string) : option (ascii * string) :=
  match s with
  | EmptyString => None
  | String c t =>
      if (N_of_ascii c =? 34)%N then None
      else if (N_of_ascii c =? 92)%N then
        match t with
        | EmptyString => None
        | String x t' =>
            if Ascii.eqb x "b" then Some (ascii_of_N 8, t')
            else if Ascii.eqb x "f" then Some (ascii_of_N 12, t')
            else if Ascii.eqb x "n" then Some (ascii_of_N 10, t')
            else if Ascii.eqb x "r" then Some (ascii_of_N 13, t')
            else if Ascii.eqb x "t" then Some (ascii_of_N 9, t')
            else if Ascii.eqb x "u" then
              match t' with
              | String _ (String _ (String h1 (String h2 t''))) =>
                  Some (ascii_of_N (16 * hex_value h1 + hex_value h2), t'')
              | _ => None
              end
            else Some (x, t')
        end
      else Some (c, t)
  end.

Lemma unescape_escape c t : unescape_head (escape_char c ++ t) = Some (c, t).
Proof. destruct c as [[] [] [] [] [] [] [] []]; reflexivity. Qed.

Lemma escape_inj a : forall b r1 r2,
  escape a ++ dquote ++ r1 = escape b ++ dquote ++ r2 -> a = b /\ r1 = r2.
Proof.
  induction a as [|x a IH]; intros [|y b] r1 r2; simpl; intros E.
  - split; [reflexivity|]. now inversion E.
  - rewrite app_assoc in E. apply (f_equal unescape_head) in E.
    rewrite unescape_escape in E. discriminate.
  - rewrite app_assoc in E. apply (f_equal unescape_head) in E.
    rewrite unescape_escape in E. discriminate.
  - rewrite !app_assoc in E. pose proof (f_equal unescape_head E) as U.
    rewrite !unescape_escape in U. inversion U; subst.
    destruct (IH _ _ _ H1) as [-> ->]. auto.
Qed.

Lemma quote_inj a b r1 r2 : quote a ++ r1 = quote b ++ r2 -> a = b /\ r1 = r2.
Proof.
  unfold quote. rewrite !app_assoc. intros E.
  apply app_inv_head in E. now apply escape_inj.
Qed.

(** *** Values *)

(** The text of a value inside an array. *)
Definition ser (v : JsValue) : string := default "null" (stringify v).

Definition member (kv : string * JsValue) : string :=
  quote (fst kv) ++ ":" ++ ser (snd kv).

Fixpoint tail_join (sep : string) (l : list string) : string :=
  match l with
  | [] => ""
  | x :: l' => sep ++ x ++ tail_join sep l'
  end.

(** What may follow the text of a value. *)
Definition delim (r : string) : bool :=
  match r with
  | EmptyString => true
  | String c _ => Ascii.eqb c "," || Ascii.eqb c "]" || Ascii.eqb c "}"
  end.

(** The kind of value a text begins, read off its first character. *)
Definition tag (s : string) : nat :=
  match s with
  | EmptyString => 0
  | String c _ =>
      if num_char c then 1
      else if Ascii.eqb c "n" then 2
      else if Ascii.eqb c "t" then 3
      else if Ascii.eqb c "f" then 4
      else if (N_of_ascii c =? 34)%N then 5
      else if Ascii.eqb c "[" then 6
      else if Ascii.eqb c "{" then 7
      else 0
  end%nat.

Definition kind (v : JsValue) : nat :=
  match v with
  | JUndefined => 0
  | JNum _ => 1
  | JNull => 2
  | JBool true => 3
  | JBool false => 4
  | JStr _ => 5
  | JArr _ => 6
  | JObj _ => 7
  end%nat.

Lemma join_cons sep x l : join sep (x :: l) = x ++ tail_join sep l.
Proof.
  revert x. induction l as [|y l IH]; intros x.
  - simpl. now rewrite app_nil_r.
  - change (join sep (x :: y :: l)) with (x ++ sep ++ join sep (y :: l)).
    now rewrite IH.
Qed.

Lemma stringify_shaped v : json_shaped v = true -> stringify v = Some (ser v).
Proof. unfold ser. destruct v as [ | |[]| | | | ]; simpl; intros H; try reflexivity. discriminate. Qed.

Lemma ser_arr l : ser (JArr l) = "[" ++ join "," (map ser l) ++ "]".
Proof. reflexivity. Qed.

Lemma members_shaped l :
  forallb (fun kv => json_shaped (snd kv)) l = true ->
  omap (fun kv => (fun s => quote (fst kv) ++ ":" ++ s) <$> stringify (snd kv)) l
  = map member l.
Proof.
  induction l as [|[k v] l IH]; [reflexivity|].
  intros H. simpl in H. apply andb_prop in H as [Hv Hl].
  set (f := fun kv : string * JsValue =>
              (fun s => quote (fst kv) ++ ":" ++ s) <$> stringify (snd kv)) in *.
  change (omap f ((k, v) :: l)) with
    (match f (k, v) with Some y => y :: omap f l | None => omap f l end).
  rewrite (IH Hl). unfold f. simpl fst. simpl snd.
  rewrite (stringify_shaped _ Hv). reflexivity.
Qed.

Lemma ser_obj l :
  forallb (fun kv => json_shaped (snd kv)) l = true ->
  ser (JObj l) = "{" ++ join "," (map member l) ++ "}".
Proof.
  intros H. unfold ser.
  change (stringify (JObj l)) with
    (Some ("{" ++ join ","
             (omap (fun kv => (fun s => quote (fst kv) ++ ":" ++ s) <$> stringify (snd kv)) l)
           ++ "}")).
  now rewrite members_shaped.
Qed.

Lemma tag_ser v r : json_shaped v = true -> tag (ser v ++ r) = kind v.
Proof.
  destruct v as [ | |[]|n|s|l|l]; intros H; try discriminate; try reflexivity.
  - unfold ser. simpl.
    destruct (number_nonempty n) as (c & t & E).
    pose proof (number_chars n) as Hc. rewrite E in *. simpl in Hc.
    apply andb_prop in Hc as [Hc _]. rewrite app_cons. simpl. now rewrite Hc.
Qed.

Lemma delim_stops r : delim r = true -> stops num_char r = true.
Proof.
  destruct r as [|c r]; [reflexivity|]. simpl.
  destruct c as [[] [] [] [] [] [] [] []]; simpl; intros H; try discriminate; reflexivity.
Qed.

(** The statement proved by induction on the first value. *)
Definition determined (a : JsValue) : Prop :=
  forall b r1 r2,
    json_shaped a = true -> json_shaped b = true ->
    delim r1 = true -> delim r2 = true ->
    ser a ++ r1 = ser b ++ r2 -> a = b /\ r1 = r2.

Lemma elems_determined close (l1 : list JsValue) :
  Forall determined l1 ->
  (close = "]"%char \/ close = "}"%char) ->
  forall l2 r1 r2,
    forallb json_shaped l1 = true -> forallb json_shaped l2 = true ->
    tail_join "," (map ser l1) ++ String close r1
    = tail_join "," (map ser l2) ++ String close r2 ->
    l1 = l2 /\ r1 = r2.
Proof.
  intros HF Hclose. induction HF as [|x l1 Hx HF IH]; intros [|y l2] r1 r2 S1 S2 E.
  - simpl in E. inversion E. auto.
  - simpl in E. rewrite !app_assoc in E. destruct Hclose; subst; discriminate.
  - simpl in E. rewrite !app_assoc in E. destruct Hclose; subst; discriminate.
  - simpl in S1, S2. apply andb_prop in S1 as [Sx S1]. apply andb_prop in S2 as [Sy S2].
    simpl in E. rewrite !app_assoc in E. apply app_inv_head in E.
    assert (D : forall l r, delim (tail_join "," l ++ String close r) = true).
    { intros l r. destruct l; [|reflexivity].
      destruct Hclose; subst; reflexivity. }
    destruct (Hx y _ _ Sx Sy (D _ _) (D _ _) E) as [-> E'].
    destruct (IH _ _ _ S1 S2 E') as [-> ->]. auto.
Qed.

Lemma members_determined (l1 : list (string * JsValue)) :
  Forall (fun kv => determined (snd kv)) l1 ->
  forall l2 r1 r2,
    forallb (fun kv => json_shaped (snd kv)) l1 = true ->
    forallb (fun kv => json_shaped (snd kv)) l2 = true ->
    tail_join "," (map member l1) ++ String "}" r1
    = tail_join "," (map member l2) ++ String "}" r2 ->
    l1 = l2 /\ r1 = r2.
Proof.
  intros HF. induction HF as [|[k x] l1 Hx HF IH]; intros [|[k' y] l2] r1 r2 S1 S2 E.
  - simpl in E. inversion E. auto.
  - simpl in E. rewrite !app_assoc in E. discriminate.
  - simpl in E. rewrite !app_assoc in E. discriminate.
  - simpl in S1, S2. apply andb_prop in S1 as [Sx S1]. apply andb_prop in S2 as [Sy S2].
    simpl in Hx, Sx, Sy.
    simpl in E. unfold member in E. simpl in E. rewrite !app_assoc in E.
    apply app_inv_head in E. apply quote_inj in E as [-> E].
    apply app_inv_head in E.
    assert (D : forall l r, delim (tail_join "," l ++ String "}" r) = true).
    { intros l r. destruct l; reflexivity. }
    destruct (Hx y _ _ Sx Sy (D _ _) (D _ _) E) as [-> E'].
    destruct (IH _ _ _ S1 S2 E') as [-> ->]. auto.
Qed.

Lemma ser_determined a : determined a.
Proof.
  induction a as [ | |x|n|s|l IH|l IH] using JsValue_nested_ind;
    intros b r1 r2 Sa Sb D1 D2 E; try discriminate.
  all: pose proof (f_equal tag E) as T; rewrite !tag_ser in T by assumption.
  all: destruct b as [ | |y|m|t|l'|l']; try discriminate;
    try (destruct x; discriminate); try (destruct y; discriminate).
  - (* null *)
    split; [reflexivity|]. exact (app_inv_head _ _ _ E).
  - (* booleans *)
    destruct x, y; try discriminate; split; try reflexivity;
      exact (app_inv_head _ _ _ E).
  - (* numbers *)
    unfold ser in E. simpl in E.
    destruct (run_inj num_char _ _ _ _ (number_chars n) (number_chars m)
                (delim_stops _ D1) (delim_stops _ D2) E) as [En Er].
    apply number_inj in En. subst. auto.
  - (* strings *)
    unfold ser in E. simpl in E. apply quote_inj in E as [-> ->]. auto.
  - (* arrays *)
    rewrite !ser_arr in E. rewrite !app_assoc in E. apply app_inv_head in E.
    simpl in Sa, Sb.
    destruct l as [|x l], l' as [|y l'].
    + simpl in E. inversion E. auto.
    + simpl map in E. rewrite join_cons in E. simpl join in E.
      rewrite app_nil_l in E. apply (f_equal tag) in E.
      simpl in Sb. apply andb_prop in Sb as [Sy _].
      rewrite !app_assoc, tag_ser in E by exact Sy.
      destruct y as [ | |[]| | | | ]; discriminate.
    + simpl map in E. rewrite join_cons in E. simpl join in E.
      rewrite app_nil_l in E. apply (f_equal tag) in E.
      simpl in Sa. apply andb_prop in Sa as [Sx _].
      rewrite !app_assoc, tag_ser in E by exact Sx.
      destruct x as [ | |[]| | | | ]; discriminate.
    + simpl map in E. rewrite !join_cons, !app_assoc in E.
      simpl in Sa, Sb.
      apply andb_prop in Sa as [Sx Sa]. apply andb_prop in Sb as [Sy Sb].
      inversion IH as [|? ? Hx Hl]; subst.
      assert (D : forall l r, delim (tail_join "," l ++ String "]" r) = true).
      { intros l0 r. destruct l0; reflexivity. }
      destruct (Hx y _ _ Sx Sy (D _ _) (D _ _) E) as [-> E'].
      destruct (elems_determined "]" l Hl (or_introl eq_refl) _ _ _ Sa Sb E')
        as [-> ->].
      auto.
  - (* objects *)
    simpl in Sa, Sb. rewrite !ser_obj in E by assumption.
    rewrite !app_assoc in E. apply app_inv_head in E.
    destruct l as [|[k x] l], l' as [|[k' y] l'].
    + simpl in E. inversion E. auto.
    + simpl map in E. rewrite join_cons in E. simpl join in E.
      rewrite app_nil_l in E. unfold member, quote in E.
      rewrite !app_assoc in E. discriminate.
    + simpl map in E. rewrite join_cons in E. simpl join in E.
      rewrite app_nil_l in E. unfold member, quote in E.
      rewrite !app_assoc in E. discriminate.
    + simpl map in E. rewrite !join_cons in E. unfold member at 1 3 in E.
      simpl fst in E. simpl snd in E. rewrite !app_assoc in E.
      apply quote_inj in E as [-> E]. apply app_inv_head in E.
      simpl in Sa, Sb.
      apply andb_prop in Sa as [Sx Sa]. apply andb_prop in Sb as [Sy Sb].
      inversion IH as [|? ? Hx Hl]; subst. simpl in Hx.
      assert (D : forall l r, delim (tail_join "," l ++ String "}" r) = true).
      { intros l0 r. destruct l0; reflexivity. }
      destruct (Hx y _ _ Sx Sy (D _ _) (D _ _) E) as [-> E'].
      destruct (members_determined l Hl _ _ _ Sa Sb E') as [-> ->].
      auto.
Qed.

(** [JSON.stringify] is injective on JSON-shaped values. *)
Lemma stringify_inj a b :
  json_shaped a = true -> json_shaped b = true ->
  stringify a = stringify b -> a = b.
Proof.
  intros Sa Sb E. rewrite (stringify_shaped _ Sa), (stringify_shaped _ Sb) in E.
  injection E as E.
  assert (E' : ser a ++ "" = ser b ++ "") by now rewrite E.
  now destruct (ser_determined a b "" "" Sa Sb eq_refl eq_refl E').
Qed.

Lemma Equality_refl v : Equality v v = true.
Proof. unfold Equality. now apply bool_decide_eq_true. Qed.

End JsonFacts.

(** ** The host: time only moves forward *)

Module HostFacts.
Import Host Quiet.

(** [w'] is a later state of the world [w]: the clock has not gone
    back, the calls made are still on record, and what lies ahead of the
    program (latencies, pages) is the same. *)
Definition later (w w' : World) : Prop :=
  w_clock w <= w_clock w'
  /\ (exists new, w_calls w' = (new ++ w_calls w)%list)
  /\ w_latency w' = w_latency w
  /\ w_dom w' = w_dom w.

Definition steady {A} (m : M A) : Prop := forall w, later w (snd (m w)).

(** Under ideal timing the computation takes no time. *)
Definition instant {A} (m : M A) : Prop :=
  forall w, ideal w -> w_clock (snd (m w)) = w_clock w.

Lemma later_refl w : later w w.
Proof. repeat split; [lia | now exists []]. Qed.

Lemma later_trans w1 w2 w3 : later w1 w2 -> later w2 w3 -> later w1 w3.
Proof.
  intros (C1 & [n1 E1] & L1 & D1) (C2 & [n2 E2] & L2 & D2).
  repeat split; [lia | | congruence | congruence].
  exists (n2 ++ n1)%list. rewrite E2, E1. now rewrite app_assoc.
Qed.

Lemma later_ideal w w' : later w w' -> ideal w -> ideal w'.
Proof. intros (_ & _ & L & _) H k. rewrite L. apply H. Qed.

Lemma later_advance c extra w : 0 <= extra -> later w (advance c extra w).
Proof.
  intros H. repeat split; simpl; [lia|]. now exists [c].
Qed.

Lemma later_record_writes h sets w : later w (record_writes h sets w).
Proof. repeat split; simpl; [lia|]. now exists []. Qed.

Lemma steady_ret {A} (a : A) : steady (ret a).
Proof. intros w. apply later_refl. Qed.

Lemma steady_bind {A B} (m : M A) (k : A -> M B) :
  steady m -> (forall a, steady (k a)) -> steady (bind m k).
Proof.
  intros Hm Hk w. unfold bind. specialize (Hm w).
  destruct (m w) as [[a|e] w1]; simpl in *; [|exact Hm].
  eapply later_trans; [exact Hm | apply Hk].
Qed.

Lemma steady_try_catch {A} (body : M A) (handler : string -> M A) :
  steady body -> (forall e, steady (handler e)) -> steady (try_catch body handler).
Proof.
  intros Hm Hk w. unfold try_catch. specialize (Hm w).
  destruct (body w) as [[a|e] w1]; simpl in *; [exact Hm|].
  eapply later_trans; [exact Hm | apply Hk].
Qed.

Lemma steady_date_now : steady date_now.
Proof. intros w. apply later_advance. lia. Qed.

Lemma steady_sleep ms : steady (sleep ms).
Proof. intros w. apply later_advance. lia. Qed.

Lemma steady_element_handles l : steady (element_handles l).
Proof. intros w. apply later_advance. lia. Qed.

Lemma steady_count l : steady (count l).
Proof. intros w. apply later_advance. lia. Qed.

Lemma steady_run_in_page {A} d h (fn : Window -> Element -> PageResult A) :
  steady (run_in_page d h fn).
Proof.
  intros w. unfold run_in_page. destruct (dom_element d h); simpl;
    [apply later_record_writes | apply later_refl].
Qed.

Lemma steady_evaluate {A} h (fn : Window -> Element -> PageResult A) :
  steady (evaluate h fn).
Proof.
  intros w. unfold evaluate.
  eapply later_trans; [apply (later_advance (CallEvaluate h) 0); lia|].
  apply steady_run_in_page.
Qed.

Lemma steady_evaluate_first {A} l (fn : Window -> Element -> PageResult A) :
  steady (evaluate_first l fn).
Proof.
  intros w. unfold evaluate_first.
  destruct (dom_nodes _ l) as [[|h hs]|e]; simpl;
    try (apply later_advance; lia).
  eapply later_trans; [apply (later_advance (CallEvaluateFirst l) 0); lia|].
  apply steady_run_in_page.
Qed.

Lemma clock_advance_ideal c extra w :
  ideal w -> w_clock (advance c extra w) = w_clock w + extra.
Proof. intros H. simpl. rewrite H. lia. Qed.

Lemma instant_ret {A} (a : A) : instant (ret a).
Proof. now intros w _. Qed.

Lemma instant_bind {A B} (m : M A) (k : A -> M B) :
  steady m -> instant m -> (forall a, instant (k a)) -> instant (bind m k).
Proof.
  intros Sm Hm Hk w I. unfold bind. specialize (Hm w I). specialize (Sm w).
  destruct (m w) as [[a|e] w1]; simpl in *; [|exact Hm].
  rewrite Hk; [exact Hm | eapply later_ideal; eauto].
Qed.

Lemma instant_try_catch {A} (body : M A) (handler : string -> M A) :
  steady body -> instant body -> (forall e, instant (handler e)) ->
  instant (try_catch body handler).
Proof.
  intros Sm Hm Hk w I. unfold try_catch. specialize (Hm w I). specialize (Sm w).
  destruct (body w) as [[a|e] w1]; simpl in *; [exact Hm|].
  rewrite Hk; [exact Hm | eapply later_ideal; eauto].
Qed.

Lemma instant_date_now : instant date_now.
Proof. intros w I. unfold date_now. simpl snd. rewrite clock_advance_ideal by exact I. lia. Qed.

Lemma instant_element_handles l : instant (element_handles l).
Proof. intros w I. unfold element_handles. simpl snd. rewrite clock_advance_ideal by exact I. lia. Qed.

Lemma instant_count l : instant (count l).
Proof. intros w I. unfold count. simpl snd. rewrite clock_advance_ideal by exact I. lia. Qed.

Lemma clock_run_in_page {A} d h (fn : Window -> Element -> PageResult A) w :
  w_clock (snd (run_in_page d h fn w)) = w_clock w.
Proof. unfold run_in_page. now destruct (dom_element d h). Qed.

Lemma instant_evaluate {A} h (fn : Window -> Element -> PageResult A) :
  instant (evaluate h fn).
Proof.
  intros w I. unfold evaluate. rewrite clock_run_in_page.
  rewrite clock_advance_ideal by exact I. lia.
Qed.

Lemma instant_evaluate_first {A} l (fn : Window -> Element -> PageResult A) :
  instant (evaluate_first l fn).
Proof.
  intros w I. unfold evaluate_first.
  destruct (dom_nodes _ l) as [[|h hs]|e]; simpl snd;
    rewrite ?clock_run_in_page, clock_advance_ideal by exact I; lia.
Qed.

End HostFacts.

(** ** Loops *)

Module LoopFacts.
Import Host HostFacts.

Section Rounds.
Context {S R : Type} (round : S -> M (LoopStep S R)).

(** The loop ends in the round at [(s, w)]. *)
Definition ends (s : S) (w : World) (c : Completion R) (w' : World) : Prop :=
  match round s w with
  | (Throw e, w1) => c = Throw e /\ w' = w1
  | (Normal (Break r), w1) => c = Normal r /\ w' = w1
  | (Normal (Continue _), _) => False
  end.

Lemma while_loop_rounds k : forall n s w s' w',
  rounds round k s w = Some (s', w') ->
  while_loop round (k + n) s w = while_loop round n s' w'.
Proof.
  induction k as [|k IH]; intros n s w s' w' H; simpl in *.
  - now inversion H.
  - destruct (round s w) as [[[r|s1]|e] w1]; try discriminate. now apply IH.
Qed.

Lemma while_loop_last n : forall s w c w',
  while_loop round n s w = Some (c, w') ->
  exists k sk wk,
    (k < n)%nat /\ rounds round k s w = Some (sk, wk) /\ ends sk wk c w'.
Proof.
  induction n as [|n IH]; intros s w c w' H; simpl in H; [discriminate|].
  destruct (round s w) as [[[r|s1]|e] w1] eqn:E.
  - inversion H; subst. exists O, s, w. unfold ends. rewrite E.
    repeat split; simpl; auto. lia.
  - destruct (IH _ _ _ _ H) as (k & sk & wk & Hk & Hr & He).
    exists (Datatypes.S k), sk, wk. simpl. rewrite E. repeat split; auto. lia.
  - inversion H; subst. exists O, s, w. unfold ends. rewrite E.
    repeat split; simpl; auto. lia.
Qed.

Lemma while_loop_ends k : forall n s w sk wk c w',
  rounds round k s w = Some (sk, wk) -> ends sk wk c w' ->
  while_loop round (k + Datatypes.S n) s w = Some (c, w').
Proof.
  intros n s w sk wk c w' Hr He.
  rewrite (while_loop_rounds k _ _ _ _ _ Hr). simpl. unfold ends in He.
  destruct (round sk wk) as [[[r|s1]|e] w1]; try contradiction;
    destruct He as [-> ->]; reflexivity.
Qed.

(** A measure that every continuing round lowers bounds the number
    of rounds. *)
Lemma while_loop_terminates (mu : S -> World -> nat) :
  (forall s w s' w', round s w = (Normal (Continue s'), w') ->
                     (mu s' w' < mu s w)%nat) ->
  forall n s w, (mu s w < n)%nat -> exists r, while_loop round n s w = Some r.
Proof.
  intros Hmu. induction n as [|n IH]; intros s w Hn; [lia|]. simpl.
  destruct (round s w) as [[[r|s1]|e] w1] eqn:E; eauto.
  apply IH. specialize (Hmu _ _ _ _ E). lia.
Qed.

Lemma while_loop_mono n : forall m s w r,
  while_loop round n s w = Some r -> (n <= m)%nat ->
  while_loop round m s w = Some r.
Proof.
  induction n as [|n IH]; intros m s w r H Hm; simpl in H; [discriminate|].
  destruct m as [|m]; [lia|]. simpl.
  destruct (round s w) as [[[r0|s1]|e] w1]; auto. apply IH; [exact H | lia].
Qed.

Lemma rounds_later k : forall s w s' w',
  (forall s, steady (round s)) ->
  rounds round k s w = Some (s', w') -> later w w'.
Proof.
  induction k as [|k IH]; intros s w s' w' Hs H; simpl in H.
  - inversion H; subst. apply later_refl.
  - pose proof (Hs s w) as L.
    destruct (round s w) as [[[r|s1]|e] w1]; try discriminate.
    eapply later_trans; [exact L | eapply IH; eauto].
Qed.

Lemma rounds_split k : forall s w s' w',
  rounds round (Datatypes.S k) s w = Some (s', w') ->
  exists sk wk, rounds round k s w = Some (sk, wk)
                /\ round sk wk = (Normal (Continue s'), w').
Proof.
  induction k as [|k IH]; intros s w s' w' H.
  - simpl in H. destruct (round s w) as [[[r|s1]|e] w1] eqn:E; try discriminate.
    inversion H; subst. exists s, w. auto.
  - change (rounds round (Datatypes.S (Datatypes.S k)) s w) with
      (match round s w with
       | (Normal (Continue s1), w1) => rounds round (Datatypes.S k) s1 w1
       | _ => None
       end) in H.
    destruct (round s w) as [[[r|s1]|e] w1] eqn:E; try discriminate.
    destruct (IH _ _ _ _ H) as (sk & wk & Hk & Hl).
    exists sk, wk. split; [|exact Hl].
    simpl. now rewrite E.
Qed.


End Rounds.
End LoopFacts.

(** ** The resolver, round by round *)

Module ResolverFacts.
Import Json Host HostFacts LoopFacts Resolver.

Lemma steady_candidate value h i sels : steady (candidate value h i sels).
Proof.
  unfold candidate. apply steady_try_catch; [|intros; apply steady_ret].
  apply steady_bind; [apply steady_evaluate|]. intros v.
  destruct (Equality v value); [|apply steady_ret].
  apply steady_bind; [apply steady_evaluate | intros; apply steady_ret].
Qed.

Lemma steady_scan value hs : forall i sels, steady (scan value hs i sels).
Proof.
  induction hs as [|h hs IH]; intros i sels; simpl; [apply steady_ret|].
  apply steady_bind; [apply steady_candidate | intros; apply IH].
Qed.

Lemma steady_tick root ngModel value : steady (tick root ngModel value).
Proof.
  unfold tick. apply steady_bind; [apply steady_element_handles|].
  intros; apply steady_scan.
Qed.

Lemma instant_candidate value h i sels : instant (candidate value h i sels).
Proof.
  unfold candidate. apply instant_try_catch; [| |intros; apply instant_ret].
  - apply steady_bind; [apply steady_evaluate|]. intros v.
    destruct (Equality v value); [|apply steady_ret].
    apply steady_bind; [apply steady_evaluate | intros; apply steady_ret].
  - apply instant_bind; [apply steady_evaluate | apply instant_evaluate |].
    intros v. destruct (Equality v value); [|apply instant_ret].
    apply instant_bind; [apply steady_evaluate | apply instant_evaluate |].
    intros; apply instant_ret.
Qed.

Lemma instant_scan value hs : forall i sels, instant (scan value hs i sels).
Proof.
  induction hs as [|h hs IH]; intros i sels; simpl; [apply instant_ret|].
  apply instant_bind; [apply steady_candidate | apply instant_candidate |].
  intros; apply IH.
Qed.

Lemma instant_tick root ngModel value : instant (tick root ngModel value).
Proof.
  unfold tick.
  apply instant_bind; [apply steady_element_handles | apply instant_element_handles |].
  intros; apply instant_scan.
Qed.

Lemma resolver_round_passed root ngModel value deadline w :
  deadline < w_clock (polled w) ->
  round root ngModel value deadline tt w
  = (Normal (Break (locator root no_match)), polled w).
Proof.
  intros H. unfold round, bind, date_now, polled in *.
  destruct (Z.leb_spec (w_clock (advance CallNow 0 w)) deadline); [lia|reflexivity].
Qed.

Lemma resolver_round_threw root ngModel value deadline w e w' :
  w_clock (polled w) <= deadline ->
  tick root ngModel value (polled w) = (Throw e, w') ->
  round root ngModel value deadline tt w = (Throw e, w').
Proof.
  intros H T. unfold round, bind, date_now, polled in *.
  destruct (Z.leb_spec (w_clock (advance CallNow 0 w)) deadline); [|lia].
  now rewrite T.
Qed.

Lemma resolver_round_kept root ngModel value deadline w sel sels w' :
  w_clock (polled w) <= deadline ->
  tick root ngModel value (polled w) = (Normal (sel :: sels), w') ->
  round root ngModel value deadline tt w
  = (Normal (Break (locator root (Str.join ", " (sel :: sels)))), w').
Proof.
  intros H T. unfold round, bind, date_now, polled in *.
  destruct (Z.leb_spec (w_clock (advance CallNow 0 w)) deadline); [|lia].
  now rewrite T.
Qed.

Lemma resolver_round_empty root ngModel value deadline w w' :
  w_clock (polled w) <= deadline ->
  tick root ngModel value (polled w) = (Normal [], w') ->
  round root ngModel value deadline tt w = (Normal (Continue tt), slept w').
Proof.
  intros H T. unfold round, bind, date_now, polled in *.
  destruct (Z.leb_spec (w_clock (advance CallNow 0 w)) deadline); [|lia].
  now rewrite T.
Qed.

(** A round that goes on found the deadline not passed and nothing
    kept, and slept. *)
Lemma resolver_round_continue root ngModel value deadline w s' w' :
  round root ngModel value deadline tt w = (Normal (Continue s'), w') ->
  w_clock (polled w) <= deadline
  /\ exists w2, tick root ngModel value (polled w) = (Normal [], w2) /\ w' = slept w2.
Proof.
  intros H.
  destruct (Z.le_gt_cases (w_clock (polled w)) deadline) as [Hd|Hd].
  - split; [exact Hd|].
    destruct (tick root ngModel value (polled w)) as [[[|sel sels]|e] w2] eqn:T.
    + rewrite (resolver_round_empty _ _ _ _ _ _ Hd T) in H. inversion H. eauto.
    + rewrite (resolver_round_kept _ _ _ _ _ _ _ _ Hd T) in H. discriminate.
    + rewrite (resolver_round_threw _ _ _ _ _ _ _ Hd T) in H. discriminate.
  - rewrite resolver_round_passed in H by exact Hd. discriminate.
Qed.

Lemma resolver_steady_round root ngModel value deadline s :
  steady (round root ngModel value deadline s).
Proof.
  unfold round. apply steady_bind; [apply steady_date_now|]. intros now.
  destruct (now <=? deadline); [|apply steady_ret].
  apply steady_bind; [apply steady_tick|]. intros sels.
  destruct (0 <? List.length sels)%nat; [apply steady_ret|].
  apply steady_bind; [apply steady_sleep | intros; apply steady_ret].
Qed.

Lemma later_polled w : later w (polled w).
Proof. apply later_advance. lia. Qed.

Lemma resolver_round_progress root ngModel value deadline w s' w' :
  round root ngModel value deadline tt w = (Normal (Continue s'), w') ->
  w_clock w <= deadline /\ w_clock w + pollInterval <= w_clock w'.
Proof.
  intros H. apply resolver_round_continue in H as (Hd & w2 & T & ->).
  pose proof (later_polled w) as (C1 & _).
  pose proof (steady_tick root ngModel value (polled w)) as (C2 & _).
  rewrite T in C2. simpl in C2.
  split; [lia|]. unfold slept, pollInterval in *. simpl. lia.
Qed.

(** The rounds left before the deadline. *)
Definition budget (deadline : Z) (_ : unit) (w : World) : nat :=
  Z.to_nat (deadline + 1 - w_clock w).

Lemma resolver_round_lowers_budget root ngModel value deadline s w s' w' :
  round root ngModel value deadline s w = (Normal (Continue s'), w') ->
  (budget deadline s' w' < budget deadline s w)%nat.
Proof.
  destruct s. intros H. apply resolver_round_progress in H as [H1 H2].
  unfold budget, pollInterval in *. lia.
Qed.

Lemma resolver_loop_returns root ngModel value deadline w :
  forall fuel, (budget deadline tt w < fuel)%nat ->
  exists r, while_loop (round root ngModel value deadline) fuel tt w = Some r.
Proof.
  intros fuel. apply (while_loop_terminates _ (budget deadline)).
  intros s w0 s' w'. apply resolver_round_lowers_budget.
Qed.

End ResolverFacts.


(** ** The matcher, round by round *)

Module MatcherFacts.
Import Json Host HostFacts LoopFacts Matcher.

Lemma attempt_count_threw l expected seen w e w1 :
  count l w = (Throw e, w1) ->
  attempt l expected seen w = (Normal (Continue (with_error seen e)), w1).
Proof. intros C. unfold attempt, try_catch, bind. now rewrite C. Qed.

Lemma attempt_strict l expected seen w n w1 :
  count l w = (Normal n, w1) -> (1 < n)%nat ->
  attempt l expected seen w = (Normal (Break (strict_outcome expected n)), w1).
Proof.
  intros C H. unfold attempt, try_catch, bind. rewrite C.
  destruct (Nat.ltb_spec 1 n); [reflexivity | lia].
Qed.

Lemma attempt_read_threw l expected seen w n w1 e w2 :
  count l w = (Normal n, w1) -> (n <= 1)%nat ->
  Reader.getNgModelValue l w1 = (Throw e, w2) ->
  attempt l expected seen w = (Normal (Continue (with_error seen e)), w2).
Proof.
  intros C H G. unfold attempt, try_catch, bind. rewrite C.
  destruct (Nat.ltb_spec 1 n); [lia|]. now rewrite G.
Qed.

Lemma attempt_equal l expected seen w n w1 v w2 :
  count l w = (Normal n, w1) -> (n <= 1)%nat ->
  Reader.getNgModelValue l w1 = (Normal v, w2) ->
  Equality v expected = true ->
  attempt l expected seen w = (Normal (Break (pass_outcome expected v)), w2).
Proof.
  intros C H G E. unfold attempt, try_catch, bind. rewrite C.
  destruct (Nat.ltb_spec 1 n); [lia|]. rewrite G. now rewrite E.
Qed.

Lemma attempt_differs l expected seen w n w1 v w2 :
  count l w = (Normal n, w1) -> (n <= 1)%nat ->
  Reader.getNgModelValue l w1 = (Normal v, w2) ->
  Equality v expected = false ->
  attempt l expected seen w = (Normal (Continue (with_actual seen v)), w2).
Proof.
  intros C H G E. unfold attempt, try_catch, bind. rewrite C.
  destruct (Nat.ltb_spec 1 n); [lia|]. rewrite G. now rewrite E.
Qed.

(** Whatever the calls of an attempt do, the attempt completes
    normally. *)
Lemma attempt_normal l expected seen w :
  exists step, fst (attempt l expected seen w) = Normal step.
Proof.
  destruct (count l w) as [[n|e] w1] eqn:C.
  - destruct (Nat.ltb_spec 1 n) as [Hn|Hn].
    + rewrite (attempt_strict _ expected seen _ _ _ C Hn). eauto.
    + destruct (Reader.getNgModelValue l w1) as [[v|e] w2] eqn:G.
      * destruct (Equality v expected) eqn:E.
        -- rewrite (attempt_equal _ _ seen _ _ _ _ _ C Hn G E). eauto.
        -- rewrite (attempt_differs _ _ seen _ _ _ _ _ C Hn G E). eauto.
      * rewrite (attempt_read_threw _ expected seen _ _ _ _ _ C Hn G). eauto.
  - rewrite (attempt_count_threw _ expected seen _ _ _ C). eauto.
Qed.

Lemma steady_attempt l expected seen : steady (attempt l expected seen).
Proof.
  unfold attempt. apply steady_try_catch; [|intros; apply steady_ret].
  apply steady_bind; [apply steady_count|]. intros n.
  destruct (1 <? n)%nat; [apply steady_ret|].
  apply steady_bind; [apply steady_evaluate_first|]. intros v.
  destruct (Equality v expected); apply steady_ret.
Qed.

Lemma instant_attempt l expected seen : instant (attempt l expected seen).
Proof.
  unfold attempt. apply instant_try_catch; [| |intros; apply instant_ret].
  - apply steady_bind; [apply steady_count|]. intros n.
    destruct (1 <? n)%nat; [apply steady_ret|].
    apply steady_bind; [apply steady_evaluate_first|]. intros v.
    destruct (Equality v expected); apply steady_ret.
  - apply instant_bind; [apply steady_count | apply instant_count |]. intros n.
    destruct (1 <? n)%nat; [apply instant_ret|].
    apply instant_bind; [apply steady_evaluate_first | apply instant_evaluate_first |].
    intros v. destruct (Equality v expected); apply instant_ret.
Qed.

Lemma matcher_round_passed l expected deadline seen w :
  deadline < w_clock (polled w) ->
  round l expected deadline seen w
  = (Normal (Break (timeout_outcome expected seen)), polled w).
Proof.
  intros H. unfold round, bind, date_now, polled in *.
  destruct (Z.leb_spec (w_clock (advance CallNow 0 w)) deadline); [lia|reflexivity].
Qed.

Lemma matcher_round_break l expected deadline seen w outcome w' :
  w_clock (polled w) <= deadline ->
  attempt l expected seen (polled w) = (Normal (Break outcome), w') ->
  round l expected deadline seen w = (Normal (Break outcome), w').
Proof.
  intros H A. unfold round, bind, date_now, polled in *.
  destruct (Z.leb_spec (w_clock (advance CallNow 0 w)) deadline); [|lia].
  now rewrite A.
Qed.

Lemma matcher_round_retry l expected deadline seen w seen' w' :
  w_clock (polled w) <= deadline ->
  attempt l expected seen (polled w) = (Normal (Continue seen'), w') ->
  round l expected deadline seen w = (Normal (Continue seen'), slept w').
Proof.
  intros H A. unfold round, bind, date_now, polled in *.
  destruct (Z.leb_spec (w_clock (advance CallNow 0 w)) deadline); [|lia].
  now rewrite A.
Qed.

Lemma matcher_round_continue l expected deadline seen w seen' w' :
  round l expected deadline seen w = (Normal (Continue seen'), w') ->
  w_clock (polled w) <= deadline
  /\ exists w2, attempt l expected seen (polled w) = (Normal (Continue seen'), w2)
                /\ w' = slept w2.
Proof.
  intros H.
  destruct (Z.le_gt_cases (w_clock (polled w)) deadline) as [Hd|Hd].
  - split; [exact Hd|].
    destruct (attempt_normal l expected seen (polled w)) as [step A].
    destruct (attempt l expected seen (polled w)) as [c w2] eqn:A'.
    simpl in A. subst c. destruct step as [outcome|seen2].
    + rewrite (matcher_round_break _ _ _ _ _ _ _ Hd A') in H. discriminate.
    + rewrite (matcher_round_retry _ _ _ _ _ _ _ Hd A') in H. inversion H; subst. eauto.
  - rewrite matcher_round_passed in H by exact Hd. discriminate.
Qed.

Lemma matcher_round_normal l expected deadline seen w :
  exists step, fst (round l expected deadline seen w) = Normal step.
Proof.
  destruct (Z.le_gt_cases (w_clock (polled w)) deadline) as [Hd|Hd].
  - destruct (attempt_normal l expected seen (polled w)) as [step A].
    destruct (attempt l expected seen (polled w)) as [c w2] eqn:A'.
    simpl in A. subst c. destruct step as [outcome|seen2].
    + rewrite (matcher_round_break _ _ _ _ _ _ _ Hd A'). eauto.
    + rewrite (matcher_round_retry _ _ _ _ _ _ _ Hd A'). eauto.
  - rewrite matcher_round_passed by exact Hd. eauto.
Qed.

Lemma matcher_steady_round l expected deadline seen : steady (round l expected deadline seen).
Proof.
  unfold round. apply steady_bind; [apply steady_date_now|]. intros now.
  destruct (now <=? deadline); [|apply steady_ret].
  apply steady_bind; [apply steady_attempt|]. intros [outcome|seen'].
  - apply steady_ret.
  - apply steady_bind; [apply steady_sleep | intros; apply steady_ret].
Qed.

Lemma matcher_round_progress l expected deadline seen w seen' w' :
  round l expected deadline seen w = (Normal (Continue seen'), w') ->
  w_clock w <= deadline /\ w_clock w + pollInterval <= w_clock w'.
Proof.
  intros H. apply matcher_round_continue in H as (Hd & w2 & A & ->).
  pose proof (later_advance CallNow 0 w ltac:(lia)) as (C1 & _).
  pose proof (steady_attempt l expected seen (polled w)) as (C2 & _).
  rewrite A in C2. simpl in C2. fold (polled w) in C1.
  split; [lia|]. unfold slept, pollInterval in *. simpl. lia.
Qed.

Definition budget (deadline : Z) (_ : Seen) (w : World) : nat :=
  Z.to_nat (deadline + 1 - w_clock w).

Lemma matcher_loop_returns l expected deadline seen w :
  forall fuel, (budget deadline seen w < fuel)%nat ->
  exists r, while_loop (round l expected deadline) fuel seen w = Some r.
Proof.
  intros fuel. apply (while_loop_terminates _ (budget deadline)).
  intros s w0 s' w' H. apply matcher_round_progress in H as [H1 H2].
  unfold budget, pollInterval in *. lia.
Qed.

(** The loop never throws. *)
Lemma matcher_loop_normal l expected deadline fuel seen w c w' :
  while_loop (round l expected deadline) fuel seen w = Some (c, w') ->
  exists outcome, c = Normal outcome.
Proof.
  intros H. apply while_loop_last in H as (k & sk & wk & _ & _ & E).
  unfold ends in E. destruct (matcher_round_normal l expected deadline sk wk) as [step N].
  destruct (round l expected deadline sk wk) as [c0 w0]. simpl in N. subst c0.
  destruct step; [|contradiction]. destruct E as [-> _]. eauto.
Qed.

End MatcherFacts.

(** * The claims *)

(** ** Equality *)

Module EqualityClaims.
Import Json Shape JsonFacts Sample.

(** C6, the failing input.  The mappings [{a: 1, b: 2}] and
    [{b: 2, a: 1}] hold the same key-value pairs and are structurally
    equal, and yet [Equality] is false on them: what is compared are the
    serialized texts, and neither key being integer-like, each text
    lists the keys as they were inserted.  With the first mapping in the
    model and the second asked for, the resolver finds no element and
    returns the sentinel, and the assertion fails at the deadline,
    showing the two texts. *)
Lemma Equality_depends_on_key_order :
  structural_eq ab ba = true
  /\ Equality ab ba = false
  /\ stringify ab
     = Some ("{" ++ dquote ++ "a" ++ dquote ++ ":1," ++ dquote ++ "b" ++ dquote ++ ":2}")
  /\ stringify ba
     = Some ("{" ++ dquote ++ "b" ++ dquote ++ ":2," ++ dquote ++ "a" ++ dquote ++ ":1}")
  /\ (exists w',
        Resolver.getByNgModelValue 52 [] "cfg" ba ab_world
        = Some (Normal (locator [] Resolver.no_match), w'))
  /\ (exists outcome w',
        Matcher.toHaveNgValue 3 cfg_locator ba within_60 ab_world
        = Some (Normal outcome, w')
        /\ Matcher.pass outcome = false
        /\ Matcher.actual outcome = ab
        /\ Matcher.message outcome
           = "Expected ng-model to have value: " ++ template ba ++ Matcher.newline
             ++ "Received: " ++ template ab).
Proof.
  split; [reflexivity|]. split; [reflexivity|].
  split; [reflexivity|]. split; [reflexivity|]. split.
  - eexists. vm_compute. reflexivity.
  - eexists. eexists. split; [vm_compute; reflexivity|]. repeat split.
Qed.

(** The rest of what is asked of [Equality] holds.  On JSON-shaped
    values (no [undefined] inside) it is true exactly when the two
    values are the same value, each object with its properties in the
    order it enumerates them: true of a value and itself, false once a
    key or an element differs. *)
Theorem Equality_is_identity_on_json (a b : JsValue) :
  json_shaped a = true -> json_shaped b = true ->
  (Equality a b = true <-> a = b).
Proof.
  intros Sa Sb. unfold Equality. rewrite bool_decide_eq_true. split.
  - now apply stringify_inj.
  - now intros ->.
Qed.

(** At the two mappings above, which differ in the order of their keys
    and are not the same value. *)
Lemma Equality_is_identity_on_json_witness :
  Equality ab ba = true <-> ab = ba.
Proof. apply (Equality_is_identity_on_json ab ba); reflexivity. Defined.

Example Equality_of_nested_value : Equality nested nested = true.
Proof. reflexivity. Qed.

(** Outside the JSON-shaped values the serialized texts can coincide:
    [undefined] in an array is written [null], and a property holding
    [undefined] is left out. *)
Example Equality_conflates_undefined :
  Equality (JArr [JUndefined]) (JArr [JNull]) = true
  /\ Equality (JObj [("a", JUndefined)]) (JObj []) = true.
Proof. split; reflexivity. Qed.

End EqualityClaims.

(** ** The installer *)

Module InstallClaims.
Import Install Sample.

Lemma prototype_set_page page key p rt :
  locator_prototype (set_page page key p rt) = locator_prototype rt.
Proof. reflexivity. Qed.

(** Installation leaves the prototype alone once [getByNgModel] is on
    it. *)
Lemma install_skips page rt :
  is_truthy (locator_prototype rt !! "getByNgModel") = true ->
  locator_prototype (installAngularjsExtensions page rt) = locator_prototype rt.
Proof.
  intros H. unfold installAngularjsExtensions. simpl. now rewrite H.
Qed.

Lemma install_provides page rt :
  is_truthy (locator_prototype (installAngularjsExtensions page rt) !! "getByNgModel")
  = true.
Proof.
  unfold installAngularjsExtensions. simpl.
  destruct (is_truthy (locator_prototype rt !! "getByNgModel")) eqn:E; simpl.
  - exact E.
  - rewrite lookup_insert_ne by discriminate. now rewrite lookup_insert_eq.
Qed.

(** C9.  After a first installation [getByNgModel] is on the shared
    locator prototype, and a second installation, on the same page or
    on another one, leaves the prototype as it is: its [getByNgModel]
    and [getByNgModelValue] are the function objects the first one put
    there, not new ones. *)
Theorem install_twice_keeps_prototype (rt : Runtime) (page1 page2 : nat) :
  let rt1 := installAngularjsExtensions page1 rt in
  let rt2 := installAngularjsExtensions page2 rt1 in
  locator_prototype rt2 = locator_prototype rt1
  /\ locator_prototype rt2 !! "getByNgModel" = locator_prototype rt1 !! "getByNgModel"
  /\ locator_prototype rt2 !! "getByNgModelValue"
     = locator_prototype rt1 !! "getByNgModelValue".
Proof.
  intros rt1 rt2.
  assert (E : locator_prototype rt2 = locator_prototype rt1).
  { apply install_skips, install_provides. }
  now rewrite E.
Qed.

(** On a fresh runtime the first installation creates the two locator
    methods, and the page methods of the second page are new function
    objects while the locator methods stay those of the first call. *)
Example install_on_fresh :
  let rt2 := installAngularjsExtensions 2 (installAngularjsExtensions 1 fresh) in
  locator_prototype rt2 !! "getByNgModel" = Some (Function 2 LocatorGetByNgModel)
  /\ locator_prototype rt2 !! "getByNgModelValue"
     = Some (Function 3 LocatorGetByNgModelValue)
  /\ next_function rt2 = 6%nat.
Proof. vm_compute. auto. Qed.

End InstallClaims.

(** ** The scope readers *)

Module ReaderClaims.
Import Json Reader Sample.

(** C3, counterexample.  The attribute is present and the scope is
    obtainable, the scope exposes no evaluator, and walking the path
    through the scope would give "Ann"; the readers do not fall back
    to walking it: the read of the matcher throws and that of the
    resolver gives [undefined]. *)
Lemma no_fallback_without_evaluator :
  el_ng_model plain_input = Some "user.name"
  /\ (exists scope, el_scope plain_input = Some scope
                    /\ scope_eval scope = None
                    /\ Legacy.walk (scope_self scope) (Legacy.split_dot "user.name")
                       = Normal (JStr "Ann"))
  /\ pr_completion (ng_model_value loaded plain_input)
     = Throw "Could not find AngularJS scope for element"
  /\ pr_completion (candidate_value loaded plain_input) = Normal JUndefined.
Proof.
  split; [reflexivity|]. split; [|split; reflexivity].
  eexists. repeat split; reflexivity.
Qed.

(** C3, as amended.  For an element whose model-path attribute is
    present and whose scope is obtainable, with AngularJS loaded: when
    the scope exposes an evaluator the readers evaluate the path with
    it (the matcher's read rethrows what it throws, the resolver's
    gives [undefined] then); when it exposes none the read fails as
    for a missing scope, without walking the path.  Walking the path as
    dot-separated property accesses is what the first revision of the
    reader does, whether or not the scope has an evaluator, and that
    walk gives [undefined] as soon as a segment is absent. *)
Theorem reader_uses_evaluator_only (win : Window) (el : Element)
    (path : string) (scope : Scope) :
  el_ng_model el = Some path -> path <> "" ->
  win_angular win = true -> el_scope el = Some scope ->
  match scope_eval scope with
  | Some eval =>
      pr_completion (ng_model_value win el)
      = match eval path with
        | Normal v => Normal v
        | Throw e => Throw (failed_to_evaluate path " via $eval: " e)
        end
      /\ pr_completion (candidate_value win el)
         = Normal match eval path with Normal v => v | Throw _ => JUndefined end
  | None =>
      pr_completion (ng_model_value win el)
      = Throw "Could not find AngularJS scope for element"
      /\ pr_completion (candidate_value win el) = Normal JUndefined
  end
  /\ pr_completion (Legacy.ng_model_value win el)
     = match Legacy.walk (scope_self scope) (Legacy.split_dot path) with
       | Normal v => Normal v
       | Throw e => Throw (failed_to_evaluate path ": " e)
       end
  /\ forall value key rest,
       Legacy.get_prop value key = Normal JUndefined ->
       Legacy.walk value (key :: rest) = Normal JUndefined.
Proof.
  intros Hattr Hpath Hang Hscope.
  unfold ng_model_value, candidate_value, Legacy.ng_model_value.
  rewrite Hattr, Hang, Hscope.
  rewrite (bool_decide_eq_false_2 _ Hpath). simpl negb. cbv iota.
  split; [|split].
  - destruct (scope_eval scope) as [eval|]; [|split; reflexivity].
    destruct (eval path); split; reflexivity.
  - destruct (Legacy.walk _ _); reflexivity.
  - intros value key rest H. simpl. now rewrite H.
Qed.

Lemma reader_uses_evaluator_only_witness :
  (pr_completion (ng_model_value loaded ann_input) = Normal (JStr "Ann")
   /\ pr_completion (candidate_value loaded ann_input) = Normal (JStr "Ann"))
  /\ pr_completion (Legacy.ng_model_value loaded ann_input) = Normal (JStr "Ann")
  /\ forall value key rest,
       Legacy.get_prop value key = Normal JUndefined ->
       Legacy.walk value (key :: rest) = Normal JUndefined.
Proof.
  apply (reader_uses_evaluator_only loaded ann_input "user.name"
           (scope_on (user (JStr "Ann"))));
    [reflexivity | discriminate | reflexivity | reflexivity].
Defined.

(** The readers agree on what fails: the matcher's read throws exactly
    when a check fails, and the resolver's read gives [undefined]
    then. *)
Lemma ng_model_value_failure win el :
  match read_failure win el with
  | Some _ => exists message, pr_completion (ng_model_value win el) = Throw message
  | None => exists v, pr_completion (ng_model_value win el) = Normal v
                      /\ pr_completion (candidate_value win el) = Normal v
  end.
Proof.
  unfold read_failure, ng_model_value, candidate_value.
  destruct (el_ng_model el) as [path|]; [|eauto].
  destruct (bool_decide (path = "")); [eauto|].
  destruct (win_angular win); simpl; [|eauto].
  destruct (el_scope el) as [scope|]; [|eauto].
  destruct (scope_eval scope) as [eval|]; [|eauto].
  destruct (eval path); eauto.
Qed.

Lemma candidate_value_failure win el failure :
  read_failure win el = Some failure ->
  candidate_value win el = page_return JUndefined.
Proof.
  unfold read_failure, candidate_value.
  destruct (el_ng_model el) as [path|]; [|reflexivity].
  destruct (bool_decide (path = "")); [reflexivity|].
  destruct (win_angular win); simpl; [|reflexivity].
  destruct (el_scope el) as [scope|]; [|reflexivity].
  destruct (scope_eval scope) as [eval|]; [|reflexivity].
  destruct (eval path); [discriminate | reflexivity].
Qed.

End ReaderClaims.

(** ** The matcher *)

Module MatcherClaims.
Import Json Host HostFacts LoopFacts Matcher History MatcherFacts Sample.

Lemma toHaveNgValue_loop fuel l expected options w :
  toHaveNgValue fuel l expected options w
  = while_loop (round l expected (deadline_of options w)) fuel nothing_seen (started w).
Proof. reflexivity. Qed.

(** C1.  Take any invocation and any tick it polls: [k] rounds went on
    to the next one, and in the round that follows the deadline has not
    passed.  If the locator then resolves to more than one element, the
    invocation returns the strict-mode outcome, which has failed, and
    it returns it in the world right after the count: since the round
    began only the clock was read and the elements counted, so neither
    a sleep nor the rest of the timeout went by. *)
Theorem strict_mode_fails_at_once (l : Locator) (expected : JsValue)
    (options : option Options) (w : World) (k fuel : nat)
    (seen : Seen) (wk : World) (handles : list Handle) :
  rounds (round l expected (deadline_of options w)) k nothing_seen (started w)
  = Some (seen, wk) ->
  w_clock (polled wk) <= deadline_of options w ->
  dom_nodes (w_dom wk (next (polled wk))) l = Normal handles ->
  (1 < List.length handles)%nat ->
  exists outcome w',
    toHaveNgValue (k + S fuel) l expected options w = Some (Normal outcome, w')
    /\ pass outcome = false
    /\ message outcome
       = "Error: strict mode violation: locator resolved to "
         ++ number_to_string (Z.of_nat (List.length handles))
         ++ " elements, but expected 1"
    /\ w_calls w' = CallCount l :: CallNow :: w_calls wk
    /\ w_clock w'
       = w_clock wk + Z.of_nat (w_latency wk (next wk))
         + Z.of_nat (w_latency wk (S (next wk))).
Proof.
  intros Hk Hd Hn Hlen.
  exists (strict_outcome expected (List.length handles)),
         (advance (CallCount l) 0 (polled wk)).
  split; [|split; [reflexivity | split; [reflexivity | split; [reflexivity|]]]].
  - rewrite toHaveNgValue_loop.
    apply (while_loop_ends _ k fuel _ _ seen wk); [exact Hk|].
    unfold ends.
    assert (C : count l (polled wk)
                = (Normal (List.length handles), advance (CallCount l) 0 (polled wk))).
    { unfold count. simpl in Hn. simpl. now rewrite Hn. }
    rewrite (matcher_round_break _ _ _ _ _ _ _ Hd (attempt_strict _ _ _ _ _ _ C Hlen)).
    auto.
  - simpl. unfold next. simpl. lia.
Qed.

Lemma strict_mode_fails_at_once_witness :
  exists outcome w',
    toHaveNgValue 2 name_locator (JStr "Bob") None twin_world = Some (Normal outcome, w')
    /\ pass outcome = false
    /\ message outcome
       = "Error: strict mode violation: locator resolved to 2 elements, but expected 1"
    /\ w_calls w' = CallCount name_locator :: CallNow :: w_calls twin_tick
    /\ w_clock w' = 1050.
Proof.
  apply (strict_mode_fails_at_once name_locator (JStr "Bob") None twin_world 1 0
           (with_actual nothing_seen (JStr "Ann")) twin_tick [0; 1]%nat);
    [reflexivity | vm_compute; discriminate | reflexivity | simpl; lia].
Defined.

(** *** What the rounds observed *)

Lemma round_observes l expected deadline seen w seen' w' :
  round l expected deadline seen w = (Normal (Continue seen'), w') ->
  exists o, observe l w = Some o /\ seen' = note seen o.
Proof.
  intros H. apply matcher_round_continue in H as (_ & w2 & A & _).
  unfold observe.
  destruct (count l (polled w)) as [[n|e] w1] eqn:C.
  - destruct (Nat.ltb_spec 1 n) as [Hn|Hn].
    + rewrite (attempt_strict _ expected seen _ _ _ C Hn) in A. discriminate.
    + destruct (Reader.getNgModelValue l w1) as [[v|e] w3] eqn:G.
      * destruct (Equality v expected) eqn:E.
        -- rewrite (attempt_equal _ _ seen _ _ _ _ _ C Hn G E) in A. discriminate.
        -- rewrite (attempt_differs _ _ seen _ _ _ _ _ C Hn G E) in A.
           inversion A. exists (Read v). auto.
      * rewrite (attempt_read_threw _ expected seen _ _ _ _ _ C Hn G) in A.
        inversion A. exists (Failed e). auto.
  - rewrite (attempt_count_threw _ expected seen _ _ _ C) in A.
    inversion A. exists (Failed e). auto.
Qed.

Lemma rounds_observed l expected deadline k : forall seen w seen' w',
  rounds (round l expected deadline) k seen w = Some (seen', w') ->
  List.length (observed l expected deadline k seen w) = k
  /\ seen' = fold_left note (observed l expected deadline k seen w) seen.
Proof.
  induction k as [|k IH]; intros seen w seen' w' H; simpl in H.
  - inversion H. auto.
  - simpl. destruct (round l expected deadline seen w) as [[[r|s1]|e] w1] eqn:R;
      try discriminate.
    destruct (round_observes _ _ _ _ _ _ _ R) as (o & Ho & ->). rewrite Ho.
    destruct (IH _ _ _ _ H) as [L E]. simpl. split; [now rewrite L | exact E].
Qed.

Lemma lastActual_fold obs : forall seen,
  lastActual (fold_left note obs seen) = default (lastActual seen) (last_read obs).
Proof.
  induction obs as [|o obs IH]; intros seen; [reflexivity|].
  simpl. rewrite IH. destruct (last_read obs); [reflexivity|]. now destruct o.
Qed.

Lemma lastErrorMessage_fold obs : forall seen,
  lastErrorMessage (fold_left note obs seen)
  = match last_failure obs with Some e => Some e | None => lastErrorMessage seen end.
Proof.
  induction obs as [|o obs IH]; intros seen; [reflexivity|].
  simpl. rewrite IH. destruct (last_failure obs); [reflexivity|]. now destruct o.
Qed.

(** C8, counterexample.  The first tick fails ("AngularJS is not loaded
    on the page"), the second reads the model value, which is
    [undefined], and the deadline then expires: a value was read, and the
    message carries the error of the first tick. *)
Lemma stale_error_after_undefined_read :
  observed name_locator (JStr "Ann") (deadline_of within_60 loading_world) 2
    nothing_seen (started loading_world)
  = [Failed "AngularJS is not loaded on the page"; Read JUndefined]
  /\ exists outcome w',
       toHaveNgValue 3 name_locator (JStr "Ann") within_60 loading_world
       = Some (Normal outcome, w')
       /\ pass outcome = false
       /\ message outcome
          = "Expected ng-model to have value: " ++ dquote ++ "Ann" ++ dquote ++ newline
            ++ "Received: No value (last error: AngularJS is not loaded on the page)".
Proof.
  split; [reflexivity|]. eexists. eexists.
  split; [vm_compute; reflexivity|]. split; reflexivity.
Qed.

(** C8, as amended.  When the deadline expires after [k] rounds that
    found neither a match nor a strict-mode violation, the outcome has
    failed, its [actual] is the value of the latest read that returned,
    and its message carries that value when it is not [undefined];
    when no read returned, or the latest one returned [undefined], the
    message carries the latest error message, "unknown" if there was
    none. *)
Theorem timeout_reports_last_seen (l : Locator) (expected : JsValue)
    (options : option Options) (w : World) (k fuel : nat) (seen : Seen) (wk : World) :
  rounds (round l expected (deadline_of options w)) k nothing_seen (started w)
  = Some (seen, wk) ->
  deadline_of options w < w_clock (polled wk) ->
  exists outcome obs,
    toHaveNgValue (k + S fuel) l expected options w = Some (Normal outcome, polled wk)
    /\ obs = observed l expected (deadline_of options w) k nothing_seen (started w)
    /\ List.length obs = k
    /\ pass outcome = false
    /\ actual outcome = default JUndefined (last_read obs)
    /\ message outcome
       = "Expected ng-model to have value: " ++ template expected ++ newline
         ++ "Received: "
         ++ match last_read obs with
            | Some JUndefined | None =>
                "No value (last error: " ++ default "unknown" (last_failure obs) ++ ")"
            | Some v => template v
            end.
Proof.
  intros Hk Hd.
  destruct (rounds_observed _ _ _ _ _ _ _ _ Hk) as [Hlen Hseen].
  exists (timeout_outcome expected seen),
         (observed l expected (deadline_of options w) k nothing_seen (started w)).
  split; [|split; [reflexivity | split; [exact Hlen | split; [reflexivity|]]]].
  - rewrite toHaveNgValue_loop.
    apply (while_loop_ends _ k fuel _ _ seen wk); [exact Hk|].
    unfold ends. rewrite (matcher_round_passed _ _ _ _ _ Hd). auto.
  - pose proof (lastActual_fold
                  (observed l expected (deadline_of options w) k nothing_seen (started w))
                  nothing_seen) as HA.
    pose proof (lastErrorMessage_fold
                  (observed l expected (deadline_of options w) k nothing_seen (started w))
                  nothing_seen) as HE.
    rewrite <- Hseen in HA, HE. simpl in HA, HE.
    split; [exact HA|].
    unfold timeout_outcome, receivedStr. simpl. rewrite HA, HE.
    destruct (last_read _) as [v|]; simpl.
    + destruct v; try reflexivity. now destruct (last_failure _).
    + now destruct (last_failure _).
Qed.

Lemma timeout_reports_last_seen_witness :
  exists outcome obs,
    toHaveNgValue 3 name_locator (JStr "Bob") within_60 ann_world
    = Some (Normal outcome, polled ann_after_two)
    /\ obs = observed name_locator (JStr "Bob") (deadline_of within_60 ann_world) 2
               nothing_seen (started ann_world)
    /\ List.length obs = 2%nat
    /\ pass outcome = false
    /\ actual outcome = default JUndefined (last_read obs)
    /\ message outcome
       = "Expected ng-model to have value: " ++ template (JStr "Bob") ++ newline
         ++ "Received: "
         ++ match last_read obs with
            | Some JUndefined | None =>
                "No value (last error: " ++ default "unknown" (last_failure obs) ++ ")"
            | Some v => template v
            end.
Proof.
  apply (timeout_reports_last_seen name_locator (JStr "Bob") within_60 ann_world 2 0
           (with_actual nothing_seen (JStr "Ann")) ann_after_two);
    [reflexivity | vm_compute; reflexivity].
Defined.

(** The report of that run, spelled out. *)
Example timeout_report_of_ann :
  exists outcome w',
    toHaveNgValue 3 name_locator (JStr "Bob") within_60 ann_world
    = Some (Normal outcome, w')
    /\ message outcome
       = "Expected ng-model to have value: " ++ dquote ++ "Bob" ++ dquote ++ newline
         ++ "Received: " ++ dquote ++ "Ann" ++ dquote.
Proof. eexists. eexists. split; [vm_compute; reflexivity | reflexivity]. Qed.

(** *** Totality *)



(** On the closed page every tick throws; the matcher still returns, and
    reports the error. *)
Example closed_page_is_reported :
  exists outcome w',
    toHaveNgValue 62 name_locator (JStr "Ann") within_60 closed_world
    = Some (Normal outcome, w')
    /\ pass outcome = false
    /\ message outcome
       = "Expected ng-model to have value: " ++ dquote ++ "Ann" ++ dquote ++ newline
         ++ "Received: No value (last error: Target page, context or browser has been closed)".
Proof. eexists. eexists. split; [vm_compute; reflexivity | split; reflexivity]. Qed.

(** The radio group of the examples: two inputs share the attribute, so
    the matcher reports a strict-mode violation at its first tick. *)
Example radio_group_is_a_strict_mode_violation :
  exists outcome w',
    toHaveNgValue 1 role_locator (JStr "guest") None radio_world
    = Some (Normal outcome, w')
    /\ pass outcome = false
    /\ actual outcome = JStr "Found 2 elements"
    /\ w_clock w' = w_clock radio_world.
Proof. eexists. eexists. split; [vm_compute; reflexivity | repeat split]. Qed.

End MatcherClaims.

(** ** The resolver *)

Module ResolverClaims.
Import Json Host HostFacts LoopFacts Resolver Quiet ResolverFacts Sample.

Lemma getByNgModelValue_loop fuel root ngModel value w :
  getByNgModelValue fuel root ngModel value w
  = while_loop (round root ngModel value (deadline_of w)) fuel tt (started w).
Proof. reflexivity. Qed.

(** *** One candidate *)

Lemma candidate_value_sets win el : pr_set (Reader.candidate_value win el) = [].
Proof.
  unfold Reader.candidate_value.
  destruct (el_ng_model el) as [path|]; [|reflexivity].
  destruct (bool_decide (path = "")); [reflexivity|].
  destruct (negb (win_angular win)); [reflexivity|].
  destruct (el_scope el) as [scope|]; [|reflexivity].
  destruct (scope_eval scope) as [eval|]; [|reflexivity].
  destruct (eval path); reflexivity.
Qed.

Lemma evaluate_threw {A} h (fn : Window -> Element -> PageResult A) w e :
  dom_element (w_dom w (next w)) h = Throw e ->
  evaluate h fn w = (Throw e, evaluating h w).
Proof. intros H. unfold evaluate, run_in_page. now rewrite H. Qed.

Lemma evaluate_ran {A} h (fn : Window -> Element -> PageResult A) w el :
  dom_element (w_dom w (next w)) h = Normal el ->
  evaluate h fn w
  = (pr_completion (fn (window_of (w_dom w (next w)) (evaluating h w)) el),
     record_writes h (pr_set (fn (window_of (w_dom w (next w)) (evaluating h w)) el))
       (evaluating h w)).
Proof. intros H. unfold evaluate, run_in_page. now rewrite H. Qed.

Lemma evaluate_read_keeps_writes h w :
  w_writes (snd (evaluate h Reader.candidate_value w)) = w_writes w.
Proof.
  destruct (dom_element (w_dom w (next w)) h) as [el|e] eqn:E.
  - rewrite (evaluate_ran _ _ _ _ E). simpl. now rewrite candidate_value_sets.
  - now rewrite (evaluate_threw _ _ _ _ E).
Qed.

Lemma evaluate_calls {A} h (fn : Window -> Element -> PageResult A) w :
  w_calls (snd (evaluate h fn w)) = CallEvaluate h :: w_calls w.
Proof.
  destruct (dom_element (w_dom w (next w)) h) as [el|e] eqn:E.
  - now rewrite (evaluate_ran _ _ _ _ E).
  - now rewrite (evaluate_threw _ _ _ _ E).
Qed.

(** A candidate whose evaluation throws is passed over. *)
Lemma candidate_threw value h i sels w e :
  dom_element (w_dom w (next w)) h = Throw e ->
  candidate value h i sels w = (Normal sels, evaluating h w).
Proof.
  intros H. unfold candidate, try_catch, bind. now rewrite (evaluate_threw _ _ _ _ H).
Qed.

(** A candidate whose value differs from the target is passed over. *)
Lemma candidate_differs value h i sels w v w1 :
  evaluate h Reader.candidate_value w = (Normal v, w1) ->
  Equality v value = false ->
  candidate value h i sels w = (Normal sels, w1).
Proof. intros H E. unfold candidate, try_catch, bind. rewrite H. now rewrite E. Qed.

(** A candidate whose value equals the target is kept under the
    selector [unique_id] gives it. *)
Lemma candidate_kept value h i sels w v w1 uid w2 :
  evaluate h Reader.candidate_value w = (Normal v, w1) ->
  Equality v value = true ->
  evaluate h (unique_id i) w1 = (Normal uid, w2) ->
  candidate value h i sels w = (Normal (sels ++ [uid])%list, w2).
Proof.
  intros H E U. unfold candidate, try_catch, bind. rewrite H. rewrite E. now rewrite U.
Qed.

Lemma candidate_lost value h i sels w v w1 e w2 :
  evaluate h Reader.candidate_value w = (Normal v, w1) ->
  Equality v value = true ->
  evaluate h (unique_id i) w1 = (Throw e, w2) ->
  candidate value h i sels w = (Normal sels, w2).
Proof.
  intros H E U. unfold candidate, try_catch, bind. rewrite H. rewrite E. now rewrite U.
Qed.

(** Whatever happens to a candidate, the scan goes on: the selectors
    collected so far are kept, at most one is added, and nothing was
    written on the page when none was added. *)
Lemma candidate_cases value h i sels w :
  exists more w',
    candidate value h i sels w = (Normal (sels ++ more)%list, w')
    /\ (more = [] -> w_writes w' = w_writes w).
Proof.
  destruct (evaluate h Reader.candidate_value w) as [[v|e] w1] eqn:R.
  - pose proof (evaluate_read_keeps_writes h w) as HW. rewrite R in HW. simpl in HW.
    destruct (Equality v value) eqn:E.
    + destruct (evaluate h (unique_id i) w1) as [[uid|e] w2] eqn:U.
      * exists [uid], w2. rewrite (candidate_kept _ _ _ _ _ _ _ _ _ R E U).
        split; [reflexivity | discriminate].
      * exists [], w2. rewrite (candidate_lost _ _ _ _ _ _ _ _ _ R E U).
        rewrite app_nil_r. split; [reflexivity|]. intros _.
        destruct (dom_element (w_dom w1 (next w1)) h) as [el|e'] eqn:D.
        -- rewrite (evaluate_ran _ _ _ _ D) in U. unfold unique_id in U.
           destruct (bool_decide (el_id el = "")); discriminate.
        -- rewrite (evaluate_threw _ _ _ _ D) in U. inversion U; subst. exact HW.
    + exists [], w1. rewrite (candidate_differs _ _ _ _ _ _ _ R E).
      rewrite app_nil_r. auto.
  - exists [], w1. unfold candidate, try_catch, bind. rewrite R.
    pose proof (evaluate_read_keeps_writes h w) as HW. rewrite R in HW.
    rewrite app_nil_r. auto.
Qed.

Lemma scan_cases value hs : forall i sels w,
  exists more w',
    scan value hs i sels w = (Normal (sels ++ more)%list, w')
    /\ (more = [] -> w_writes w' = w_writes w).
Proof.
  induction hs as [|h hs IH]; intros i sels w.
  - exists [], w. simpl. rewrite app_nil_r. auto.
  - destruct (candidate_cases value h i sels w) as (m1 & w1 & C & W1).
    destruct (IH (S i) (sels ++ m1)%list w1) as (m2 & w2 & S2 & W2).
    exists (m1 ++ m2)%list, w2. simpl. unfold bind. rewrite C, S2.
    rewrite app_assoc. split; [reflexivity|].
    intros Hnil. apply app_eq_nil in Hnil as [-> ->].
    rewrite W2, W1; auto.
Qed.

(** The scan evaluates every handle it is given. *)
Lemma scan_evaluates_all value hs : forall i sels w,
  exists new,
    w_calls (snd (scan value hs i sels w)) = (new ++ w_calls w)%list
    /\ forall h, In h hs -> In (CallEvaluate h) new.
Proof.
  induction hs as [|h hs IH]; intros i sels w.
  - exists []. split; [reflexivity | intros h []].
  - simpl. unfold bind.
    assert (C : exists n1, w_calls (snd (candidate value h i sels w))
                           = (n1 ++ CallEvaluate h :: w_calls w)%list).
    { unfold candidate, try_catch, bind.
      pose proof (evaluate_calls h Reader.candidate_value w) as E1.
      destruct (evaluate h Reader.candidate_value w) as [[v|e] w1]; simpl in E1.
      - destruct (Equality v value).
        + pose proof (evaluate_calls h (unique_id i) w1) as E2.
          destruct (evaluate h (unique_id i) w1) as [[uid|e] w2]; simpl in *;
            exists [CallEvaluate h]; rewrite E2, E1; reflexivity.
        + exists []. exact E1.
      - exists []. exact E1. }
    destruct C as [n1 C].
    destruct (candidate_cases value h i sels w) as (m1 & w1 & Hc & _).
    rewrite Hc in *. simpl in C.
    destruct (IH (S i) (sels ++ m1)%list w1) as (n2 & E2 & Hin).
    exists (n2 ++ n1 ++ [CallEvaluate h])%list. split.
    + rewrite E2, C. rewrite <- !app_assoc. reflexivity.
    + intros h' [<-|H'].
      * apply in_or_app. right. apply in_or_app. right. now left.
      * apply in_or_app. left. now apply Hin.
Qed.

Lemma tick_clean root ngModel value w w' :
  tick root ngModel value w = (Normal [], w') -> w_writes w' = w_writes w.
Proof.
  unfold tick, bind, element_handles.
  destruct (dom_nodes _ _) as [hs|e]; [|discriminate].
  destruct (scan_cases value hs 0 [] (advance (CallElementHandles (locator root (ng_model_selector ngModel))) 0 w))
    as (more & w2 & S2 & W2).
  rewrite S2. intros H. inversion H; subst. now apply W2.
Qed.

Lemma rounds_clean root ngModel value deadline k : forall u w u' w',
  rounds (round root ngModel value deadline) k u w = Some (u', w') ->
  w_writes w' = w_writes w.
Proof.
  induction k as [|k IH]; intros u w u' w' H; simpl in H.
  - now inversion H.
  - destruct (round root ngModel value deadline u w) as [[[r|s1]|e] w1] eqn:R;
      try discriminate.
    rewrite (IH _ _ _ _ H). destruct u.
    apply resolver_round_continue in R as (_ & w2 & T & ->).
    simpl. now rewrite (tick_clean _ _ _ _ _ T).
Qed.

(** *** The claims *)

Lemma scan_never_equal root ngModel value w0 hs : forall i w,
  never_equal root ngModel value w0 -> w_dom w = w_dom w0 ->
  fst (scan value hs i [] w) = Normal [].
Proof.
  induction hs as [|h hs IH]; intros i w N D; [reflexivity|].
  simpl. unfold bind.
  assert (C : exists w1, candidate value h i [] w = (Normal [], w1)).
  { destruct (dom_element (w_dom w (next w)) h) as [el|e] eqn:E.
    - pose proof (evaluate_ran h Reader.candidate_value w el E) as R.
      destruct (pr_completion _) as [v|e] eqn:P in R.
      + destruct (N (next w)) as [_ HN]. rewrite D in E.
        assert (Equality v value = false) as Q.
        { eapply HN; [exact E | | exact P]. simpl. now rewrite D. }
        rewrite (candidate_differs _ _ _ _ _ _ _ R Q). eauto.
      + unfold candidate, try_catch, bind. rewrite R. eauto.
    - rewrite (candidate_threw _ _ _ _ _ _ E). eauto. }
  destruct C as [w1 C]. rewrite C. apply IH; [exact N|].
  pose proof (steady_candidate value h i [] w) as (_ & _ & _ & D1).
  rewrite C in D1. simpl in D1. congruence.
Qed.

Lemma never_equal_nothing_kept root ngModel value w :
  never_equal root ngModel value w -> nothing_kept root ngModel value w.
Proof.
  intros N k wk Hk _.
  assert (D : w_dom wk = w_dom w).
  { pose proof (rounds_later _ k _ _ _ _ (resolver_steady_round _ _ _ _) Hk)
      as (_ & _ & _ & D).
    exact D. }
  unfold tick, bind, element_handles.
  destruct (N (next (polled wk))) as [[hs Hhs] _].
  change (w_dom (polled wk)) with (w_dom wk). rewrite D.
  unfold getByNgModel in Hhs. rewrite Hhs.
  apply (scan_never_equal root ngModel value w); [exact N | exact D].
Qed.

(** A run in which no tick keeps a candidate ends in the round that
    finds the deadline passed. *)
Lemma quiet_run root ngModel value w fuel :
  nothing_kept root ngModel value w ->
  (Z.to_nat (timeout + 1) < fuel)%nat ->
  exists k wk,
    rounds (round root ngModel value (deadline_of w)) k tt (started w) = Some (tt, wk)
    /\ deadline_of w < w_clock (polled wk)
    /\ getByNgModelValue fuel root ngModel value w
       = Some (Normal (locator root no_match), polled wk).
Proof.
  intros Hq Hfuel. rewrite getByNgModelValue_loop.
  destruct (resolver_loop_returns root ngModel value (deadline_of w) (started w) fuel)
    as [[c w'] Hr].
  { unfold budget, deadline_of.
    replace (w_clock (started w) + timeout + 1 - w_clock (started w))
      with (timeout + 1) by lia.
    exact Hfuel. }
  rewrite Hr.
  destruct (while_loop_last _ _ _ _ _ _ Hr) as (k & [] & wk & _ & Hk & He).
  unfold ends in He. exists k, wk.
  destruct (Z.le_gt_cases (w_clock (polled wk)) (deadline_of w)) as [Hd|Hd].
  - specialize (Hq k wk Hk Hd).
    destruct (tick root ngModel value (polled wk)) as [c2 w2] eqn:T.
    simpl in Hq. subst c2.
    rewrite (resolver_round_empty _ _ _ _ _ _ Hd T) in He. contradiction.
  - rewrite (resolver_round_passed _ _ _ _ _ Hd) in He.
    destruct He as [-> ->]. repeat split; [exact Hk | lia].
Qed.

(** C2.  When no tick keeps a candidate the resolver, given fuel for the
    rounds that fit before the deadline, returns normally, and what it
    returns is the locator of the sentinel selector
    [[data-pw-ng-no-match="true"]] under the root; by then the deadline
    has passed, and the resolver has written nothing on the page. *)
Theorem no_match_gives_sentinel (root : Locator) (ngModel : string) (value : JsValue)
    (w : World) (fuel : nat) :
  nothing_kept root ngModel value w ->
  (Z.to_nat (timeout + 1) < fuel)%nat ->
  exists w',
    getByNgModelValue fuel root ngModel value w
    = Some (Normal (locator root ("[data-pw-ng-no-match=" ++ dquote ++ "true" ++ dquote ++ "]")),
            w')
    /\ deadline_of w < w_clock w'
    /\ w_writes w' = w_writes w.
Proof.
  intros Hq Hfuel.
  destruct (quiet_run root ngModel value w fuel Hq Hfuel) as (k & wk & Hk & Hd & Hr).
  exists (polled wk). split; [exact Hr | split; [exact Hd|]].
  change (w_writes (polled wk)) with (w_writes wk).
  now rewrite (rounds_clean _ _ _ _ _ _ _ _ _ Hk).
Qed.

Lemma ann_never_bob : never_equal [] "user.name" (JStr "Bob") ann_world.
Proof.
  intros k. split; [eexists; reflexivity|].
  intros h el win v H A P. simpl in H, A.
  destruct h as [|[|h]]; simpl in H; try discriminate.
  inversion H; subst. unfold Reader.candidate_value in P. simpl in P.
  rewrite A in P. simpl in P. now inversion P.
Qed.

Lemma no_match_gives_sentinel_witness :
  exists w',
    getByNgModelValue (Z.to_nat 5002) [] "user.name" (JStr "Bob") ann_world
    = Some (Normal (locator [] ("[data-pw-ng-no-match=" ++ dquote ++ "true" ++ dquote ++ "]")),
            w')
    /\ deadline_of ann_world < w_clock w'
    /\ w_writes w' = w_writes ann_world.
Proof.
  apply (no_match_gives_sentinel [] "user.name" (JStr "Bob") ann_world (Z.to_nat 5002)).
  - apply never_equal_nothing_kept, ann_never_bob.
  - vm_compute. lia.
Defined.

(** *** The first tick that keeps a candidate *)

Lemma candidate_step value h i sels w :
  exists more w' new,
    candidate value h i sels w = (Normal (sels ++ more)%list, w')
    /\ (List.length more <= 1)%nat
    /\ w_calls w' = (new ++ w_calls w)%list
    /\ (new = [CallEvaluate h] \/ new = [CallEvaluate h; CallEvaluate h])
    /\ forall uid, In uid more -> kept_of value h uid.
Proof.
  pose proof (evaluate_calls h Reader.candidate_value w) as C1.
  destruct (evaluate h Reader.candidate_value w) as [[v|e] w1] eqn:R; simpl in C1.
  - destruct (Equality v value) eqn:E.
    + pose proof (evaluate_calls h (unique_id i) w1) as C2.
      destruct (evaluate h (unique_id i) w1) as [[uid|e] w2] eqn:U; simpl in C2.
      * exists [uid], w2, [CallEvaluate h; CallEvaluate h].
        rewrite (candidate_kept _ _ _ _ _ _ _ _ _ R E U).
        rewrite C2, C1. simpl. repeat split; auto.
        intros uid' [<-|[]]. exists i, w, v, w1. now rewrite U.
      * exists [], w2, [CallEvaluate h; CallEvaluate h].
        rewrite (candidate_lost _ _ _ _ _ _ _ _ _ R E U).
        rewrite C2, C1, app_nil_r. simpl. repeat split; auto. intros ? [].
    + exists [], w1, [CallEvaluate h].
      rewrite (candidate_differs _ _ _ _ _ _ _ R E).
      rewrite C1, app_nil_r. simpl. repeat split; auto. intros ? [].
  - exists [], w1, [CallEvaluate h]. unfold candidate, try_catch, bind. rewrite R.
    rewrite C1, app_nil_r. simpl. repeat split; auto. intros ? [].
Qed.









(** What that run returns and leaves on the page. *)
Example renamed_run :
  exists w',
    getByNgModelValue 2 [] "user.name" (JStr "Bob") renamed_world
    = Some (Normal (locator [] ("#first, [data-pw-ng-temp=" ++ dquote
                                ++ "pw-ng-temp-1-1100" ++ dquote ++ "]")), w')
    /\ w_writes w' = [(1%nat, "data-pw-ng-temp", "pw-ng-temp-1-1100")]
    /\ w_clock w' = 1100.
Proof. eexists. split; [vm_compute; reflexivity | split; reflexivity]. Qed.

(** *** A failed read and the target [undefined] *)

Lemma Equality_undefined value :
  Equality JUndefined value = true <-> value = JUndefined.
Proof.
  unfold Equality. rewrite bool_decide_eq_true. split.
  - destruct value as [ | |[]| | | | ]; simpl; intros H; try discriminate. reflexivity.
  - now intros ->.
Qed.

(** A candidate whose read fails at one of the checks is passed over,
    unless the target is [undefined]. *)
Lemma failed_read_is_no_match value h i sels w el failure :
  dom_element (w_dom w (next w)) h = Normal el ->
  Reader.read_failure (window_of (w_dom w (next w)) (evaluating h w)) el = Some failure ->
  value <> JUndefined ->
  exists w1, candidate value h i sels w = (Normal sels, w1).
Proof.
  intros D F V.
  pose proof (evaluate_ran h Reader.candidate_value w el D) as R.
  rewrite (ReaderClaims.candidate_value_failure _ _ _ F) in R. simpl in R.
  eexists. apply (candidate_differs _ _ _ _ _ _ _ R).
  destruct (Equality JUndefined value) eqn:E; [|reflexivity].
  apply Equality_undefined in E. contradiction.
Qed.

(** C4, the failing input.  AngularJS is not loaded, so the read of the
    one candidate fails; asked for the elements whose model value is
    [undefined], the resolver keeps that candidate: it marks the element
    and returns its selector instead of the sentinel. *)
Lemma unreadable_candidate_matches_undefined :
  (forall now,
     Reader.read_failure {| win_angular := dom_angular unloaded_page; win_now := now |}
       (Sample.input "" "user.name" None)
     = Some Reader.HostFrameworkAbsent)
  /\ exists w',
       getByNgModelValue 1 [] "user.name" JUndefined unloaded_world
       = Some (Normal (locator [] (temp_selector 0 1000)), w')
       /\ w_writes w' = [(O, tempAttr, tempId 0 1000)].
Proof.
  split; [reflexivity|]. eexists. split; [vm_compute; reflexivity | reflexivity].
Qed.

(** The sibling path: a candidate whose evaluation throws is passed
    over also when the target is [undefined], and the resolver ends with
    the sentinel. *)
Example thrown_candidate_is_passed_over :
  exists w',
    getByNgModelValue 52 [] "user.name" JUndefined detached_world
    = Some (Normal (locator [] no_match), w')
    /\ w_writes w' = [].
Proof. eexists. split; [vm_compute; reflexivity | reflexivity]. Qed.

(** The query of a tick is outside the [try]: when it throws, the
    resolver throws. *)
Example failed_query_is_rethrown :
  exists w',
    getByNgModelValue 1 [] "user.name" (JStr "Ann") closed_world
    = Some (Throw "Target page, context or browser has been closed", w').
Proof. eexists. vm_compute. reflexivity. Qed.

End ResolverClaims.

(** ** Deadlines *)

Module TimingClaims.
Import Json Host HostFacts LoopFacts Quiet Sample.

Lemma while_loop_later {S R} (round : S -> M (LoopStep S R)) fuel s w c w' :
  (forall s, steady (round s)) ->
  while_loop round fuel s w = Some (c, w') -> later w w'.
Proof.
  intros Hs H. apply while_loop_last in H as (k & sk & wk & _ & Hk & He).
  apply (later_trans _ wk); [exact (rounds_later _ _ _ _ _ _ Hs Hk)|].
  unfold ends in He. pose proof (Hs sk wk) as L.
  destruct (round sk wk) as [[[r|s1]|e] w1]; try contradiction;
    destruct He as [_ ->]; exact L.
Qed.

(** Under ideal timing the [k]-th round starts [k] poll intervals after
    the first. *)
Lemma resolver_rounds_clock root ngModel value deadline k : forall u w u' w',
  ideal w ->
  rounds (Resolver.round root ngModel value deadline) k u w = Some (u', w') ->
  w_clock w' = w_clock w + Resolver.pollInterval * Z.of_nat k /\ ideal w'.
Proof.
  induction k as [|k IH]; intros u w u' w' I H; simpl in H.
  - inversion H; subst. split; [lia | exact I].
  - destruct (Resolver.round root ngModel value deadline u w) as [[[r|s1]|e] w1] eqn:R;
      try discriminate.
    destruct u.
    pose proof (ResolverFacts.resolver_steady_round root ngModel value deadline tt w) as L.
    rewrite R in L. simpl in L.
    apply ResolverFacts.resolver_round_continue in R as (_ & w2 & T & ->).
    assert (I1 : ideal (polled w)).
    { apply (later_ideal w); [apply later_advance; lia | exact I]. }
    pose proof (ResolverFacts.instant_tick root ngModel value (polled w) I1) as C2.
    rewrite T in C2. simpl snd in C2.
    assert (I2 : ideal w2).
    { pose proof (ResolverFacts.steady_tick root ngModel value (polled w)) as L2.
      rewrite T in L2. exact (later_ideal _ _ L2 I1). }
    destruct (IH _ _ _ _ (later_ideal _ _ L I) H) as [E I'].
    split; [|exact I'].
    rewrite E. unfold Resolver.slept.
    rewrite (clock_advance_ideal _ _ _ I2), C2.
    unfold polled. rewrite (clock_advance_ideal _ _ _ I). lia.
Qed.

Lemma tick_after_query root ngModel value w :
  later (advance (CallElementHandles (Resolver.getByNgModel root ngModel)) 0 w)
        (snd (Resolver.tick root ngModel value w)).
Proof.
  unfold Resolver.tick, bind, element_handles, Resolver.getByNgModel.
  destruct (dom_nodes _ _) as [hs|e]; [|apply later_refl].
  apply ResolverFacts.steady_scan.
Qed.

Lemma attempt_after_count l expected seen w :
  later (advance (CallCount l) 0 w) (snd (Matcher.attempt l expected seen w)).
Proof.
  unfold Matcher.attempt, try_catch, bind, count.
  destruct (dom_nodes _ _) as [hs|e]; [|apply later_refl].
  destruct (1 <? List.length hs)%nat; [apply later_refl|].
  pose proof (steady_evaluate_first l Reader.ng_model_value
                (advance (CallCount l) 0 w)) as L.
  unfold Reader.getNgModelValue.
  destruct (evaluate_first l Reader.ng_model_value (advance (CallCount l) 0 w))
    as [[v|e] w2]; simpl in *; [|exact L].
  destruct (Equality v expected); exact L.
Qed.

(** A round that polls its tick ends in a world in which the first call
    of that tick is on record. *)
Lemma resolver_first_query root ngModel value deadline fuel w c w' :
  w_clock (polled w) <= deadline ->
  while_loop (Resolver.round root ngModel value deadline) fuel tt w = Some (c, w') ->
  later (advance (CallElementHandles (Resolver.getByNgModel root ngModel)) 0 (polled w)) w'.
Proof.
  intros Hd H. destruct fuel as [|fuel]; [discriminate|]. simpl in H.
  pose proof (tick_after_query root ngModel value (polled w)) as L.
  destruct (Resolver.tick root ngModel value (polled w)) as [[[|sel sels]|e] w2] eqn:T;
    simpl in L.
  - rewrite (ResolverFacts.resolver_round_empty _ _ _ _ _ _ Hd T) in H.
    apply while_loop_later in H; [|apply ResolverFacts.resolver_steady_round].
    eapply later_trans; [exact L|]. eapply later_trans; [|exact H].
    apply later_advance. unfold Resolver.pollInterval. lia.
  - rewrite (ResolverFacts.resolver_round_kept _ _ _ _ _ _ _ _ Hd T) in H.
    inversion H; subst. exact L.
  - rewrite (ResolverFacts.resolver_round_threw _ _ _ _ _ _ _ Hd T) in H.
    inversion H; subst. exact L.
Qed.

Lemma matcher_first_count l expected deadline fuel seen w c w' :
  w_clock (polled w) <= deadline ->
  while_loop (Matcher.round l expected deadline) fuel seen w = Some (c, w') ->
  later (advance (CallCount l) 0 (polled w)) w'.
Proof.
  intros Hd H. destruct fuel as [|fuel]; [discriminate|]. simpl in H.
  pose proof (attempt_after_count l expected seen (polled w)) as L.
  destruct (MatcherFacts.attempt_normal l expected seen (polled w)) as [step A].
  destruct (Matcher.attempt l expected seen (polled w)) as [c0 w2] eqn:A'.
  simpl in A, L. subst c0. destruct step as [outcome|seen2].
  - rewrite (MatcherFacts.matcher_round_break _ _ _ _ _ _ _ Hd A') in H.
    inversion H; subst. exact L.
  - rewrite (MatcherFacts.matcher_round_retry _ _ _ _ _ _ _ Hd A') in H.
    apply while_loop_later in H; [|apply MatcherFacts.matcher_steady_round].
    eapply later_trans; [exact L|]. eapply later_trans; [|exact H].
    apply later_advance. unfold Matcher.pollInterval. lia.
Qed.

(** C7, counterexample.  With a timeout of 0 the deadline is the first
    clock reading; a millisecond later the loop reads the clock again,
    finds the deadline passed and returns the timeout outcome: the
    matcher has made no evaluation attempt, neither counting the
    elements nor reading the value. *)
Lemma no_attempt_once_deadline_passed :
  exists w',
    Matcher.toHaveNgValue 1 name_locator (JStr "Ann") at_once ticking_world
    = Some (Normal (Matcher.timeout_outcome (JStr "Ann") Matcher.nothing_seen), w')
    /\ w_calls w' = [CallNow; CallNow]
    /\ w_clock w' = 1002.
Proof. eexists. split; [vm_compute; reflexivity | split; reflexivity]. Qed.

(** The same with a timeout below zero, whatever the clock does. *)
Example no_attempt_with_negative_timeout :
  exists w',
    Matcher.toHaveNgValue 1 name_locator (JStr "Ann") already_late ann_world
    = Some (Normal (Matcher.timeout_outcome (JStr "Ann") Matcher.nothing_seen), w')
    /\ w_calls w' = [CallNow; CallNow].
Proof. eexists. split; [vm_compute; reflexivity | reflexivity]. Qed.

(** C7, as amended.  In the resolver and in the matcher, a round that
    finds the deadline passed starts no tick: it reads the clock and
    returns.  Under ideal timing, where only sleeping takes time, a
    resolver none of whose ticks keeps a candidate returns the sentinel
    between [timeout] and [timeout + pollInterval] after it was called.
    And each loop makes an evaluation attempt (the resolver queries the
    elements, the matcher counts them) provided the deadline has not
    passed when the loop first reads the clock. *)
Theorem poll_loops_and_the_deadline (root : Locator) (ngModel : string)
    (value : JsValue) (l : Locator) (expected : JsValue)
    (options : option Matcher.Options) (w : World) (fuel : nat) :
  (forall deadline w0,
     deadline < w_clock (polled w0) ->
     Resolver.round root ngModel value deadline tt w0
     = (Normal (Break (locator root Resolver.no_match)), polled w0))
  /\ (forall deadline seen w0,
        deadline < w_clock (polled w0) ->
        Matcher.round l expected deadline seen w0
        = (Normal (Break (Matcher.timeout_outcome expected seen)), polled w0))
  /\ (ideal w ->
      nothing_kept root ngModel value w ->
      (Z.to_nat (Resolver.timeout + 1) < fuel)%nat ->
      exists w',
        Resolver.getByNgModelValue fuel root ngModel value w
        = Some (Normal (locator root Resolver.no_match), w')
        /\ Resolver.timeout <= w_clock w' - w_clock w
        /\ w_clock w' - w_clock w <= Resolver.timeout + Resolver.pollInterval)
  /\ (forall c w',
        w_clock (polled (started w)) <= Resolver.deadline_of w ->
        Resolver.getByNgModelValue fuel root ngModel value w = Some (c, w') ->
        exists new,
          w_calls w'
          = (new ++ CallElementHandles (Resolver.getByNgModel root ngModel)
                 :: CallNow :: CallNow :: w_calls w)%list)
  /\ (forall c w',
        w_clock (polled (started w)) <= Matcher.deadline_of options w ->
        Matcher.toHaveNgValue fuel l expected options w = Some (c, w') ->
        exists new,
          w_calls w' = (new ++ CallCount l :: CallNow :: CallNow :: w_calls w)%list).
Proof.
  split; [|split; [|split; [|split]]].
  - intros deadline w0. apply ResolverFacts.resolver_round_passed.
  - intros deadline seen w0. apply MatcherFacts.matcher_round_passed.
  - intros I Hq Hfuel.
    destruct (ResolverClaims.quiet_run root ngModel value w fuel Hq Hfuel)
      as (k & wk & Hk & Hd & Hr).
    exists (polled wk). split; [exact Hr|].
    assert (I0 : ideal (started w)).
    { apply (later_ideal w); [apply later_advance; lia | exact I]. }
    destruct (resolver_rounds_clock _ _ _ _ _ _ _ _ _ I0 Hk) as [Ek Ik].
    assert (E0 : w_clock (started w) = w_clock w).
    { unfold started. rewrite (clock_advance_ideal _ _ _ I). lia. }
    assert (Ep : w_clock (polled wk) = w_clock wk).
    { unfold polled. rewrite (clock_advance_ideal _ _ _ Ik). lia. }
    unfold Resolver.deadline_of, Resolver.timeout, Resolver.pollInterval in *.
    split; [lia|].
    destruct k as [|k].
    + simpl in Hk. inversion Hk; subst. lia.
    + destruct (rounds_split _ _ _ _ _ _ Hk) as ([] & wj & Hj & Hc).
      apply ResolverFacts.resolver_round_continue in Hc as (Hdj & _).
      destruct (resolver_rounds_clock _ _ _ _ _ _ _ _ _ I0 Hj) as [Ej Ij].
      assert (Epj : w_clock (polled wj) = w_clock wj).
      { unfold polled. rewrite (clock_advance_ideal _ _ _ Ij). lia. }
      unfold Resolver.pollInterval in Ej. lia.
  - intros c w' Hd H. rewrite ResolverClaims.getByNgModelValue_loop in H.
    destruct (resolver_first_query _ _ _ _ _ _ _ _ Hd H) as (_ & [new E] & _).
    exists new. exact E.
  - intros c w' Hd H. rewrite MatcherClaims.toHaveNgValue_loop in H.
    destruct (matcher_first_count _ _ _ _ _ _ _ _ Hd H) as (_ & [new E] & _).
    exists new. exact E.
Qed.

Lemma poll_loops_and_the_deadline_witness :
  Resolver.round [] "user.name" (JStr "Bob") 999 tt ann_world
  = (Normal (Break (locator [] Resolver.no_match)), polled ann_world)
  /\ Matcher.round name_locator (JStr "Bob") 999 Matcher.nothing_seen
       ann_world
     = (Normal (Break (Matcher.timeout_outcome (JStr "Bob") Matcher.nothing_seen)),
        polled ann_world)
  /\ (exists w',
        Resolver.getByNgModelValue (Z.to_nat 5002) [] "user.name" (JStr "Bob")
          ann_world
        = Some (Normal (locator [] Resolver.no_match), w')
        /\ 5000 <= w_clock w' - 1000
        /\ w_clock w' - 1000 <= 5100)
  /\ (exists c w' new,
        Resolver.getByNgModelValue (Z.to_nat 5002) [] "user.name" (JStr "Bob")
          ann_world
        = Some (c, w')
        /\ w_calls w' = (new ++ [CallElementHandles name_locator; CallNow; CallNow])%list)
  /\ (exists c w' new,
        Matcher.toHaveNgValue (Z.to_nat 5002) name_locator (JStr "Bob")
          within_60 ann_world
        = Some (c, w')
        /\ w_calls w' = (new ++ [CallCount name_locator; CallNow; CallNow])%list).
Proof.
  destruct (poll_loops_and_the_deadline [] "user.name" (JStr "Bob") name_locator
              (JStr "Bob") within_60 ann_world
              (Z.to_nat 5002)) as (A & B & C & D & E).
  assert (Hq : nothing_kept [] "user.name" (JStr "Bob")
                 ann_world).
  { apply ResolverClaims.never_equal_nothing_kept, ResolverClaims.ann_never_bob. }
  assert (Hi : ideal ann_world) by (intros k; reflexivity).
  assert (Hf : (Z.to_nat (Resolver.timeout + 1) < Z.to_nat 5002)%nat)
    by (vm_compute; lia).
  destruct (C Hi Hq Hf) as (w' & R & Lo & Hi').
  split; [apply A; vm_compute; reflexivity|].
  split; [apply B; vm_compute; reflexivity|].
  split; [exists w'; auto|].
  split.
  - destruct (D _ _ ltac:(vm_compute; discriminate) R) as [new En].
    exists (Normal (locator [] Resolver.no_match)), w', new. auto.
  - assert (M : exists r,
               Matcher.toHaveNgValue (Z.to_nat 5002) name_locator (JStr "Bob")
                 within_60 ann_world = Some r).
    { rewrite MatcherClaims.toHaveNgValue_loop.
      apply MatcherFacts.matcher_loop_returns. vm_compute. lia. }
    destruct M as [[c wm] M].
    destruct (E c wm ltac:(vm_compute; discriminate) M) as [new En].
    exists c, wm, new. auto.
Defined.

(** Under ideal timing the resolver that finds nothing returns exactly
    [timeout + pollInterval] after it was called: 51 ticks, 51 sleeps. *)
Example quiet_resolver_takes_5100 :
  exists w',
    Resolver.getByNgModelValue 52 [] "user.name" (JStr "Bob") ann_world
    = Some (Normal (locator [] Resolver.no_match), w')
    /\ w_clock w' - w_clock ann_world = 5100.
Proof. eexists. split; [vm_compute; reflexivity | reflexivity]. Qed.

End TimingClaims.

(** * More about the code

    ** The installer, on the page and on a prototype someone else
    patched *)

Module InstallMore.
Import Install Sample.

(** The own properties of a page object, none when the page is new. *)
Definition page_props (page : nat) (rt : Runtime) : gmap string Property :=
  default ∅ (pages rt !! page).

Lemma pages_after_install page rt :
  pages (installAngularjsExtensions page rt)
  = <[page := <["getByNgModelValue" := Function (S (next_function rt))
                                          (PageGetByNgModelValue page)]>
                (<["getByNgModel" := Function (next_function rt) (PageGetByNgModel page)]>
                   (page_props page rt))]> (pages rt).
Proof.
  unfold installAngularjsExtensions, page_props. simpl.
  destruct (is_truthy (locator_prototype rt !! "getByNgModel")); simpl;
    rewrite lookup_insert_eq; simpl; now rewrite insert_insert_eq.
Qed.

(** X1.  Whatever the locator prototype holds, an installation gives the
    page both methods, as new function objects bound to that page, and
    touches neither the other properties of the page nor the other
    pages. *)
Theorem install_sets_page_methods (page other : nat) (key : string) (rt : Runtime) :
  other <> page ->
  key <> "getByNgModel" -> key <> "getByNgModelValue" ->
  let rt' := installAngularjsExtensions page rt in
  page_props page rt' !! "getByNgModel"
  = Some (Function (next_function rt) (PageGetByNgModel page))
  /\ page_props page rt' !! "getByNgModelValue"
     = Some (Function (S (next_function rt)) (PageGetByNgModelValue page))
  /\ page_props page rt' !! key = page_props page rt !! key
  /\ pages rt' !! other = pages rt !! other.
Proof.
  intros Ho K1 K2 rt'. unfold page_props at 1 2 3. subst rt'.
  rewrite pages_after_install. rewrite lookup_insert_eq. simpl.
  repeat split.
  - rewrite lookup_insert_ne by discriminate. now rewrite lookup_insert_eq.
  - now rewrite lookup_insert_eq.
  - rewrite !lookup_insert_ne by congruence. reflexivity.
  - rewrite lookup_insert_ne by congruence. reflexivity.
Qed.

(** A runtime in which page 7 has a title and the prototype a method of
    another extension. *)
Definition patched : Runtime :=
  {| next_function := 10;
     locator_prototype := {[ "getByNgModel" := Value (JStr "theirs") ]};
     pages := {[ 7%nat := {[ "title" := Value (JStr "Orders") ]} ]} |}.

Lemma install_sets_page_methods_witness :
  page_props 3 (installAngularjsExtensions 3 patched) !! "getByNgModel"
  = Some (Function 10 (PageGetByNgModel 3))
  /\ page_props 3 (installAngularjsExtensions 3 patched) !! "getByNgModelValue"
     = Some (Function 11 (PageGetByNgModelValue 3))
  /\ page_props 3 (installAngularjsExtensions 3 patched) !! "title"
     = page_props 3 patched !! "title"
  /\ pages (installAngularjsExtensions 3 patched) !! 7%nat = pages patched !! 7%nat.
Proof.
  apply (install_sets_page_methods 3 7 "title" patched); discriminate.
Defined.

(** X2.  The guard looks at [getByNgModel] only.  When the prototype
    already has a truthy [getByNgModel], from whoever, the installer
    adds neither method: the prototype is left as it was, so a locator
    gets no [getByNgModelValue] from it; only the two page functions
    were created. *)
Theorem foreign_getByNgModel_blocks_both (page : nat) (rt : Runtime) :
  is_truthy (locator_prototype rt !! "getByNgModel") = true ->
  locator_prototype (installAngularjsExtensions page rt) = locator_prototype rt
  /\ locator_prototype (installAngularjsExtensions page rt) !! "getByNgModelValue"
     = locator_prototype rt !! "getByNgModelValue"
  /\ next_function (installAngularjsExtensions page rt) = (next_function rt + 2)%nat.
Proof.
  intros H. unfold installAngularjsExtensions. simpl. rewrite H. simpl.
  repeat split. lia.
Qed.

Lemma foreign_getByNgModel_blocks_both_witness :
  locator_prototype (installAngularjsExtensions 3 patched) = locator_prototype patched
  /\ locator_prototype (installAngularjsExtensions 3 patched) !! "getByNgModelValue"
     = locator_prototype patched !! "getByNgModelValue"
  /\ next_function (installAngularjsExtensions 3 patched) = (next_function patched + 2)%nat.
Proof. apply (foreign_getByNgModel_blocks_both 3 patched). reflexivity. Defined.

(** X3.  When the prototype has no truthy [getByNgModel], the installer
    puts both locator methods on it, as two new function objects created
    after the two of the page, and changes no other property of the
    prototype. *)
Theorem install_patches_clean_prototype (page : nat) (key : string) (rt : Runtime) :
  is_truthy (locator_prototype rt !! "getByNgModel") = false ->
  key <> "getByNgModel" -> key <> "getByNgModelValue" ->
  let rt' := installAngularjsExtensions page rt in
  locator_prototype rt' !! "getByNgModel"
  = Some (Function (next_function rt + 2) LocatorGetByNgModel)
  /\ locator_prototype rt' !! "getByNgModelValue"
     = Some (Function (next_function rt + 3) LocatorGetByNgModelValue)
  /\ locator_prototype rt' !! key = locator_prototype rt !! key
  /\ next_function rt' = (next_function rt + 4)%nat.
Proof.
  intros H K1 K2 rt'. subst rt'. unfold installAngularjsExtensions. simpl.
  rewrite H. simpl.
  replace (S (S (next_function rt))) with (next_function rt + 2)%nat by lia.
  replace (S (next_function rt + 2)) with (next_function rt + 3)%nat by lia.
  repeat split.
  - rewrite lookup_insert_ne by discriminate. now rewrite lookup_insert_eq.
  - now rewrite lookup_insert_eq.
  - rewrite !lookup_insert_ne by congruence. reflexivity.
  - lia.
Qed.

(** A prototype on which [getByNgModel] is there but falsy. *)
Definition stubbed : Runtime :=
  {| next_function := 0;
     locator_prototype := {[ "getByNgModel" := Value JNull; "first" := Value (JStr "builtin") ]};
     pages := ∅ |}.

Lemma install_patches_clean_prototype_witness :
  locator_prototype (installAngularjsExtensions 1 stubbed) !! "getByNgModel"
  = Some (Function 2 LocatorGetByNgModel)
  /\ locator_prototype (installAngularjsExtensions 1 stubbed) !! "getByNgModelValue"
     = Some (Function 3 LocatorGetByNgModelValue)
  /\ locator_prototype (installAngularjsExtensions 1 stubbed) !! "first"
     = locator_prototype stubbed !! "first"
  /\ next_function (installAngularjsExtensions 1 stubbed) = 4%nat.
Proof.
  apply (install_patches_clean_prototype 1 "first" stubbed);
    [reflexivity | discriminate | discriminate].
Defined.

(** X4.  The page methods, unlike those of the prototype, are installed
    anew by every call: after a second installation on the same page its
    two methods are function objects created by that second call. *)
Theorem page_methods_are_reinstalled (page : nat) (rt : Runtime) :
  let rt1 := installAngularjsExtensions page rt in
  let rt2 := installAngularjsExtensions page rt1 in
  exists first second,
    page_props page rt1 !! "getByNgModel" = Some (Function first (PageGetByNgModel page))
    /\ page_props page rt2 !! "getByNgModel" = Some (Function second (PageGetByNgModel page))
    /\ (first < next_function rt1 <= second)%nat
    /\ locator_prototype rt2 = locator_prototype rt1.
Proof.
  intros rt1 rt2.
  exists (next_function rt), (next_function rt1).
  assert (P : forall r, page_props page (installAngularjsExtensions page r) !! "getByNgModel"
                        = Some (Function (next_function r) (PageGetByNgModel page))).
  { intros r. unfold page_props. rewrite pages_after_install, lookup_insert_eq. simpl.
    rewrite lookup_insert_ne by discriminate. now rewrite lookup_insert_eq. }
  split; [apply P|]. split; [apply P|]. split.
  - subst rt1. unfold installAngularjsExtensions. simpl.
    destruct (is_truthy (locator_prototype rt !! "getByNgModel")); simpl; lia.
  - apply InstallClaims.install_skips, InstallClaims.install_provides.
Qed.

(** X5.  The installer of the second revision gives the page the same
    two methods and never touches the locator prototype: in that
    revision a locator has no [getByNgModel]. *)
Theorem earlier_install_is_page_only (page : nat) (rt : Runtime) :
  locator_prototype (Earlier.installAngularjsExtensions page rt) = locator_prototype rt
  /\ pages (Earlier.installAngularjsExtensions page rt)
     = pages (installAngularjsExtensions page rt)
  /\ next_function (Earlier.installAngularjsExtensions page rt) = (next_function rt + 2)%nat.
Proof.
  split; [reflexivity|]. split.
  - rewrite pages_after_install. unfold Earlier.installAngularjsExtensions, page_props.
    simpl. rewrite lookup_insert_eq. simpl. now rewrite insert_insert_eq.
  - unfold Earlier.installAngularjsExtensions. simpl. lia.
Qed.

End InstallMore.

(** ** The readers, and the path walk of the first revision *)

Module ReaderMore.
Import Json Sample.

(** No character of the segment is a dot. *)
Definition dot_free (seg : string) : bool :=
  Str.all (fun c => negb (Ascii.eqb c ".")) seg.

Lemma split_dot_nonempty s : Legacy.split_dot s <> [].
Proof.
  destruct s as [|c s]; simpl; [discriminate|].
  destruct (Legacy.split_dot s); [discriminate|].
  destruct (Ascii.eqb c "."); discriminate.
Qed.

Lemma join_head sep c x l :
  Str.join sep (String c x :: l) = String c (Str.join sep (x :: l)).
Proof. destruct l; reflexivity. Qed.

Lemma split_dot_segments s : Forall (fun seg => dot_free seg = true) (Legacy.split_dot s).
Proof.
  induction s as [|c s IH]; simpl; [repeat constructor|].
  pose proof (split_dot_nonempty s) as N.
  destruct (Legacy.split_dot s) as [|seg segs]; [congruence|].
  inversion IH; subst.
  destruct (Ascii.eqb c ".") eqn:E; constructor; auto.
  unfold dot_free. simpl. rewrite E. assumption.
Qed.

(** X6.  Joining the segments of a string with dots gives the string back;
    the segments hold no dot and there is at least one. *)
Theorem join_split_dot (s : string) :
  Str.join "." (Legacy.split_dot s) = s
  /\ Forall (fun seg => dot_free seg = true) (Legacy.split_dot s)
  /\ (0 < List.length (Legacy.split_dot s))%nat.
Proof.
  split; [|split; [apply split_dot_segments|]].
  - induction s as [|c s IH]; [reflexivity|]. simpl.
    destruct (Legacy.split_dot s) as [|seg segs] eqn:E.
    + now destruct (split_dot_nonempty s).
    + destruct (Ascii.eqb_spec c ".") as [->|_].
      * change (Str.join "." ("" :: seg :: segs))
          with ("" ++ "." ++ Str.join "." (seg :: segs)).
        now rewrite IH.
      * rewrite join_head. now rewrite IH.
  - pose proof (split_dot_nonempty s). destruct (Legacy.split_dot s); simpl; [congruence | lia].
Qed.

Lemma split_dot_app seg : forall rest,
  dot_free seg = true ->
  Legacy.split_dot (seg ++ rest)
  = match Legacy.split_dot rest with
    | [] => [seg]
    | x :: xs => (seg ++ x) :: xs
    end.
Proof.
  induction seg as [|c seg IH]; intros rest H.
  - rewrite StrFacts.app_nil_l. pose proof (split_dot_nonempty rest) as N.
    destruct (Legacy.split_dot rest); [congruence | reflexivity].
  - unfold dot_free in H. simpl in H. apply andb_prop in H as [Hc H].
    rewrite StrFacts.app_cons. simpl. rewrite (IH rest H).
    pose proof (split_dot_nonempty rest) as N.
    destruct (Legacy.split_dot rest) as [|x xs]; [congruence|].
    destruct (Ascii.eqb c "."); [discriminate | reflexivity].
Qed.

(** X7.  Splitting what was joined gives the segments back, when none of
    them holds a dot. *)
Theorem split_dot_join (seg : string) (segs : list string) :
  Forall (fun x => dot_free x = true) (seg :: segs) ->
  Legacy.split_dot (Str.join "." (seg :: segs)) = seg :: segs.
Proof.
  revert seg. induction segs as [|y segs IH]; intros seg H; inversion H; subst.
  - simpl. rewrite <- (StrFacts.app_nil_r seg) at 1.
    rewrite split_dot_app by assumption. simpl. now rewrite StrFacts.app_nil_r.
  - change (Str.join "." (seg :: y :: segs))
      with (seg ++ String "." (Str.join "." (y :: segs))).
    rewrite split_dot_app by assumption.
    change (Legacy.split_dot (String "." (Str.join "." (y :: segs))))
      with (match Legacy.split_dot (Str.join "." (y :: segs)) with
            | [] => [String "." ""]
            | s0 :: ss =>
                if Ascii.eqb "." "." then "" :: s0 :: ss else String "." s0 :: ss
            end).
    rewrite (IH y) by assumption. simpl. now rewrite StrFacts.app_nil_r.
Qed.

Lemma split_dot_join_witness :
  Legacy.split_dot (Str.join "." ["form"; "address"; ""; "city"])
  = ["form"; "address"; ""; "city"].
Proof. apply (split_dot_join "form" ["address"; ""; "city"]). repeat constructor. Defined.

(** X8.  Walking a path is walking its first part and then the rest from
    where that arrived: an absent property on the way makes the whole
    walk [undefined], and a [null] on the way makes it throw. *)
Theorem walk_app (value : JsValue) (key : string) (path rest : list string) :
  Legacy.walk value (key :: path ++ rest)
  = match Legacy.walk value (key :: path) with
    | Normal JUndefined => Normal JUndefined
    | Normal value' => Legacy.walk value' rest
    | Throw e => Throw e
    end.
Proof.
  revert value key. induction path as [|k path IH]; intros value key.
  - simpl. destruct (Legacy.get_prop value key) as [[ | | | | | | ]|]; reflexivity.
  - change (Legacy.walk value (key :: (k :: path) ++ rest))
      with (match Legacy.get_prop value key with
            | Throw e => Throw e
            | Normal JUndefined => Normal JUndefined
            | Normal value' => Legacy.walk value' (k :: path ++ rest)
            end).
    change (Legacy.walk value (key :: k :: path))
      with (match Legacy.get_prop value key with
            | Throw e => Throw e
            | Normal JUndefined => Normal JUndefined
            | Normal value' => Legacy.walk value' (k :: path)
            end).
    destruct (Legacy.get_prop value key) as [[ | | | | | | ]|]; try reflexivity; apply IH.
Qed.

(** The chained walk of the first resolver gives what the plain walk
    gives, and [undefined] where the plain walk throws. *)
Lemma walk_chained_walk path : forall value,
  Earlier.walk_chained value path
  = match Legacy.walk value path with
    | Normal v => v
    | Throw _ => JUndefined
    end.
Proof.
  induction path as [|key path IH]; intros value; [reflexivity|].
  simpl. destruct value as [ | |b|n|s|l|l]; simpl; try reflexivity.
  - destruct (bool_decide (key = "length")); simpl; [apply IH | reflexivity].
  - destruct (bool_decide (key = "length")); simpl; [apply IH|].
    destruct (Legacy.lookup_index key 0 l); try reflexivity; apply IH.
  - destruct (Legacy.lookup_prop key l); try reflexivity; apply IH.
Qed.

(** X9.  The two readers of the current revision run the same checks: the
    resolver's read gives the value the matcher's read returns, and
    [undefined] whenever the matcher's read throws; neither sets an
    attribute. *)
Theorem readers_agree (win : Window) (el : Element) :
  pr_completion (Reader.candidate_value win el)
  = Normal match pr_completion (Reader.ng_model_value win el) with
           | Normal v => v
           | Throw _ => JUndefined
           end
  /\ pr_set (Reader.candidate_value win el) = []
  /\ pr_set (Reader.ng_model_value win el) = [].
Proof.
  unfold Reader.candidate_value, Reader.ng_model_value.
  destruct (el_ng_model el) as [path|]; [|repeat split].
  destruct (bool_decide (path = "")); [repeat split|].
  destruct (negb (win_angular win)); [repeat split|].
  destruct (el_scope el) as [scope|]; [|repeat split].
  destruct (scope_eval scope) as [eval|]; [|repeat split].
  destruct (eval path); repeat split.
Qed.

(** X10.  So do the two readers of the first revision, which walk the path:
    the resolver's chained walk gives [undefined] where the matcher's
    walk throws on a [null]. *)
Theorem earlier_readers_agree (win : Window) (el : Element) :
  pr_completion (Earlier.candidate_value win el)
  = Normal match pr_completion (Legacy.ng_model_value win el) with
           | Normal v => v
           | Throw _ => JUndefined
           end
  /\ pr_set (Earlier.candidate_value win el) = []
  /\ pr_set (Legacy.ng_model_value win el) = [].
Proof.
  unfold Earlier.candidate_value, Legacy.ng_model_value.
  destruct (el_ng_model el) as [path|]; [|repeat split].
  destruct (bool_decide (path = "")); [repeat split|].
  destruct (negb (win_angular win)); [repeat split|].
  destruct (el_scope el) as [scope|]; [|repeat split].
  rewrite walk_chained_walk.
  destruct (Legacy.walk (scope_self scope) (Legacy.split_dot path)); repeat split.
Qed.

(** A model in which [user] is [null]: the first matcher's read throws,
    the first resolver's read gives [undefined]. *)
Example null_on_the_way :
  let el := input "" "user.name" (Some (bare_scope (JObj [("user", JNull)]))) in
  pr_completion (Legacy.ng_model_value loaded el)
  = Throw (Reader.failed_to_evaluate "user.name" ": "
             "TypeError: Cannot read properties of null")
  /\ pr_completion (Earlier.candidate_value loaded el) = Normal JUndefined.
Proof. split; reflexivity. Qed.

End ReaderMore.

(** ** Footprints *)

Module FootprintFacts.
Import Host Footprint LoopFacts.

Section Grows.
Context (P : HostCall -> Prop) (Q : Handle * string * string -> Prop).

Lemma grows_refl w : grows P Q w w.
Proof. split; exists []; split; auto. Qed.

Lemma grows_trans w1 w2 w3 : grows P Q w1 w2 -> grows P Q w2 w3 -> grows P Q w1 w3.
Proof.
  intros [(c1 & E1 & F1) (x1 & X1 & G1)] [(c2 & E2 & F2) (x2 & X2 & G2)].
  split.
  - exists (c2 ++ c1)%list. rewrite E2, E1, app_assoc. split; [reflexivity|].
    apply Forall_app; auto.
  - exists (x2 ++ x1)%list. rewrite X2, X1, app_assoc. split; [reflexivity|].
    apply Forall_app; auto.
Qed.

Lemma grows_advance c extra w : P c -> grows P Q w (advance c extra w).
Proof.
  intros H. split; [exists [c] | exists []]; split; auto.
Qed.

Lemma grows_record_writes h sets w :
  Forall (fun nv => Q (h, fst nv, snd nv)) sets ->
  grows P Q w (record_writes h sets w).
Proof.
  intros H. split; [exists []; split; auto|].
  eexists. split; [reflexivity|].
  apply Forall_forall. intros wr Hin. apply list_elem_of_In in Hin.
  apply in_map_iff in Hin as (nv & <- & Hnv).
  apply in_rev in Hnv. rewrite Forall_forall in H. apply H.
  now apply list_elem_of_In.
Qed.

(** The computation [m] leaves such a footprint from every world. *)
Definition leaves {A} (m : M A) : Prop := forall w, grows P Q w (snd (m w)).

Lemma leaves_ret {A} (a : A) : leaves (ret a).
Proof. intros w. apply grows_refl. Qed.

Lemma leaves_bind {A B} (m : M A) (k : A -> M B) :
  leaves m -> (forall a, leaves (k a)) -> leaves (bind m k).
Proof.
  intros Hm Hk w. unfold bind. specialize (Hm w).
  destruct (m w) as [[a|e] w1]; simpl in *; [|exact Hm].
  eapply grows_trans; [exact Hm | apply Hk].
Qed.

Lemma leaves_try_catch {A} (body : M A) (handler : string -> M A) :
  leaves body -> (forall e, leaves (handler e)) -> leaves (try_catch body handler).
Proof.
  intros Hm Hk w. unfold try_catch. specialize (Hm w).
  destruct (body w) as [[a|e] w1]; simpl in *; [exact Hm|].
  eapply grows_trans; [exact Hm | apply Hk].
Qed.

Lemma leaves_date_now : P CallNow -> leaves date_now.
Proof. intros H w. now apply grows_advance. Qed.

Lemma leaves_sleep ms : P (CallSleep ms) -> leaves (sleep ms).
Proof. intros H w. now apply grows_advance. Qed.

Lemma leaves_element_handles l : P (CallElementHandles l) -> leaves (element_handles l).
Proof. intros H w. now apply grows_advance. Qed.

Lemma leaves_count l : P (CallCount l) -> leaves (count l).
Proof. intros H w. now apply grows_advance. Qed.

Lemma leaves_run_in_page {A} d h (fn : Window -> Element -> PageResult A) :
  (forall win el, Forall (fun nv => Q (h, fst nv, snd nv)) (pr_set (fn win el))) ->
  leaves (run_in_page d h fn).
Proof.
  intros H w. unfold run_in_page. destruct (dom_element d h); simpl;
    [now apply grows_record_writes | apply grows_refl].
Qed.

Lemma leaves_evaluate {A} h (fn : Window -> Element -> PageResult A) :
  P (CallEvaluate h) ->
  (forall win el, Forall (fun nv => Q (h, fst nv, snd nv)) (pr_set (fn win el))) ->
  leaves (evaluate h fn).
Proof.
  intros Hc H w. unfold evaluate.
  eapply grows_trans; [apply (grows_advance (CallEvaluate h) 0); exact Hc|].
  now apply leaves_run_in_page.
Qed.

Lemma leaves_evaluate_first {A} l (fn : Window -> Element -> PageResult A) :
  P (CallEvaluateFirst l) ->
  (forall h win el, Forall (fun nv => Q (h, fst nv, snd nv)) (pr_set (fn win el))) ->
  leaves (evaluate_first l fn).
Proof.
  intros Hc H w. unfold evaluate_first.
  destruct (dom_nodes _ l) as [[|h hs]|e]; simpl;
    try (now apply grows_advance).
  eapply grows_trans; [apply (grows_advance (CallEvaluateFirst l) 0); exact Hc|].
  now apply leaves_run_in_page.
Qed.

Lemma leaves_rounds {S R} (round : S -> M (LoopStep S R)) k : forall s w s' w',
  (forall s, leaves (round s)) ->
  rounds round k s w = Some (s', w') -> grows P Q w w'.
Proof.
  induction k as [|k IH]; intros s w s' w' Hs H; simpl in H.
  - inversion H; subst. apply grows_refl.
  - pose proof (Hs s w) as L.
    destruct (round s w) as [[[r|s1]|e] w1]; try discriminate.
    eapply grows_trans; [exact L | eapply IH; eauto].
Qed.

Lemma leaves_while_loop {S R} (round : S -> M (LoopStep S R)) fuel s w c w' :
  (forall s, leaves (round s)) ->
  while_loop round fuel s w = Some (c, w') -> grows P Q w w'.
Proof.
  intros Hs H. apply while_loop_last in H as (k & sk & wk & _ & Hk & He).
  apply (grows_trans _ wk); [exact (leaves_rounds _ _ _ _ _ _ Hs Hk)|].
  unfold ends in He. pose proof (Hs sk wk) as L.
  destruct (round sk wk) as [[[r|s1]|e] w1]; try contradiction;
    destruct He as [_ ->]; exact L.
Qed.

End Grows.
End FootprintFacts.

(** ** Counting ticks *)

Module Ticks.
Import Host HostFacts LoopFacts.

(** The ticks that still fit before the deadline, one every
    [interval]. *)
Definition ticks_left (interval deadline : Z) (w : World) : nat :=
  if w_clock w <=? deadline then (Z.to_nat ((deadline - w_clock w) / interval) + 1)%nat
  else O.

Lemma ticks_left_lowers interval deadline w w' :
  0 < interval ->
  w_clock w <= deadline -> w_clock w + interval <= w_clock w' ->
  (ticks_left interval deadline w' < ticks_left interval deadline w)%nat.
Proof.
  intros Hi Hd Hs. unfold ticks_left.
  destruct (Z.leb_spec (w_clock w) deadline); [|lia].
  destruct (Z.leb_spec (w_clock w') deadline); [|lia].
  assert (E : (deadline - w_clock w') / interval + 1 <= (deadline - w_clock w) / interval).
  { rewrite <- (Z.div_add _ 1 interval) by lia.
    apply Z.div_le_mono; lia. }
  assert (0 <= (deadline - w_clock w') / interval) by (apply Z.div_pos; lia).
  lia.
Qed.

Section Counting.
Context {S R : Type} (round : S -> M (LoopStep S R)) (interval deadline : Z).
Hypothesis interval_pos : 0 < interval.
Hypothesis progress : forall s w s' w',
  round s w = (Normal (Continue s'), w') ->
  w_clock w <= deadline /\ w_clock w + interval <= w_clock w'.

(** Rounds that went on used up ticks. *)
Lemma rounds_use_ticks k : forall s w s' w',
  rounds round k s w = Some (s', w') ->
  (k + ticks_left interval deadline w' <= ticks_left interval deadline w)%nat.
Proof.
  induction k as [|k IH]; intros s w s' w' H; simpl in H.
  - inversion H; subst. lia.
  - destruct (round s w) as [[[r|s1]|e] w1] eqn:E; try discriminate.
    destruct (progress _ _ _ _ E) as [Hd Hs].
    pose proof (ticks_left_lowers interval deadline w w1 interval_pos Hd Hs).
    specialize (IH _ _ _ _ H). lia.
Qed.

Lemma loop_returns_in_ticks fuel s w :
  (ticks_left interval deadline w < fuel)%nat ->
  exists r, while_loop round fuel s w = Some r.
Proof.
  apply (while_loop_terminates round (fun _ w => ticks_left interval deadline w)).
  intros s0 w0 s' w' E. destruct (progress _ _ _ _ E) as [Hd Hs].
  now apply ticks_left_lowers.
Qed.

End Counting.
End Ticks.

(** ** The resolver *)

Module ResolverMore.
Import Json Host HostFacts LoopFacts Resolver Quiet Footprint FootprintFacts
  ResolverFacts Sample.

Lemma unique_id_sets i h win el :
  Forall (fun nv => is_marker (h, fst nv, snd nv)) (pr_set (unique_id i win el)).
Proof.
  unfold unique_id. destruct (bool_decide (el_id el = "")); simpl; [|constructor].
  repeat constructor. simpl. eauto.
Qed.

Lemma candidate_value_sets_none (Q : Handle * string * string -> Prop) h win el :
  Forall (fun nv => Q (h, fst nv, snd nv)) (pr_set (Reader.candidate_value win el)).
Proof. rewrite ResolverClaims.candidate_value_sets. constructor. Qed.

Section Calls.
Context (P : HostCall -> Prop) (Pevaluate : forall h, P (CallEvaluate h)).

Lemma leaves_candidate value h i sels : leaves P is_marker (candidate value h i sels).
Proof.
  unfold candidate. apply leaves_try_catch; [|intros; apply leaves_ret].
  apply leaves_bind.
  - apply leaves_evaluate; [apply Pevaluate | intros; apply candidate_value_sets_none].
  - intros v. destruct (Equality v value); [|apply leaves_ret].
    apply leaves_bind; [|intros; apply leaves_ret].
    apply leaves_evaluate; [apply Pevaluate | intros; apply unique_id_sets].
Qed.

Lemma leaves_scan value hs : forall i sels, leaves P is_marker (scan value hs i sels).
Proof.
  induction hs as [|h hs IH]; intros i sels; simpl; [apply leaves_ret|].
  apply leaves_bind; [apply leaves_candidate | intros; apply IH].
Qed.

End Calls.

Lemma resolver_call_evaluate root ngModel h : resolver_call root ngModel (CallEvaluate h).
Proof. exact I. Qed.

Lemma leaves_round root ngModel value deadline u :
  leaves (resolver_call root ngModel) is_marker (round root ngModel value deadline u).
Proof.
  unfold round. apply leaves_bind; [apply leaves_date_now; exact I|]. intros now.
  destruct (now <=? deadline); [|apply leaves_ret].
  apply leaves_bind.
  - unfold tick. apply leaves_bind; [apply leaves_element_handles; reflexivity|].
    intros hs. apply leaves_scan. apply resolver_call_evaluate.
  - intros sels. destruct (0 <? List.length sels)%nat; [apply leaves_ret|].
    apply leaves_bind; [apply leaves_sleep; reflexivity | intros; apply leaves_ret].
Qed.

(** X11.  However an invocation of the resolver ends, the only attributes it
    has set are markers, [data-pw-ng-temp] with a value
    [pw-ng-temp-<index>-<time>], and the only host calls it has made
    are clock reads, sleeps of the poll interval, queries of its own
    selector under its root, and evaluations of handles. *)
Theorem resolver_footprint (root : Locator) (ngModel : string) (value : JsValue)
    (w : World) (fuel : nat) (c : Completion Locator) (w' : World) :
  getByNgModelValue fuel root ngModel value w = Some (c, w') ->
  grows (resolver_call root ngModel) is_marker w w'.
Proof.
  intros H. rewrite ResolverClaims.getByNgModelValue_loop in H.
  apply (grows_trans _ _ _ (started w)); [apply grows_advance; exact I|].
  apply (leaves_while_loop _ _ _ _ _ _ _ _ (leaves_round root ngModel value _) H).
Qed.

Lemma resolver_footprint_witness :
  grows (resolver_call [] "user.name") is_marker renamed_world
    (snd (tick [] "user.name" (JStr "Bob") (polled renamed_tick))).
Proof.
  apply (resolver_footprint [] "user.name" (JStr "Bob") renamed_world 2
           (Normal (locator [] (Str.join ", " ["#first"; temp_selector 1 1100])))).
  vm_compute. reflexivity.
Defined.

(** X12.  The one-pass resolver of the second revision reads no clock and
    never sleeps: it queries the page once and evaluates handles, and
    what it sets are markers. *)
Theorem one_pass_footprint (ngModel : string) (value : JsValue) (w : World) :
  grows (one_pass_call ngModel) is_marker w
    (snd (Earlier.getByNgModelValue ngModel value w)).
Proof.
  revert w. change (leaves (one_pass_call ngModel) is_marker
                      (Earlier.getByNgModelValue ngModel value)).
  unfold Earlier.getByNgModelValue.
  apply leaves_bind; [apply leaves_element_handles; reflexivity|]. intros hs.
  apply leaves_bind; [apply leaves_scan; intros h; exact I|]. intros sels.
  destruct (List.length sels =? 0)%nat; apply leaves_ret.
Qed.

(** *** How long it polls *)

Lemma ticks_at_start w :
  Ticks.ticks_left pollInterval (deadline_of w) (started w) = 51%nat.
Proof.
  unfold Ticks.ticks_left, deadline_of, timeout, pollInterval.
  destruct (Z.leb_spec (w_clock (started w)) (w_clock (started w) + 5000)); [|lia].
  replace (w_clock (started w) + 5000 - w_clock (started w)) with 5000 by lia.
  reflexivity.
Qed.

Lemma resolver_progress root ngModel value deadline (s : unit) w (s' : unit) w' :
  round root ngModel value deadline s w = (Normal (Continue s'), w') ->
  w_clock w <= deadline /\ w_clock w + pollInterval <= w_clock w'.
Proof. destruct s. apply resolver_round_progress. Qed.

Lemma pollInterval_pos : 0 < pollInterval.
Proof. reflexivity. Qed.

Lemma resolver_returns_in_52 root ngModel value w fuel :
  (52 <= fuel)%nat ->
  exists r, while_loop (round root ngModel value (deadline_of w)) fuel tt (started w) = Some r.
Proof.
  intros Hf.
  apply (Ticks.loop_returns_in_ticks _ pollInterval (deadline_of w) pollInterval_pos
           (resolver_progress root ngModel value (deadline_of w))).
  rewrite ticks_at_start. lia.
Qed.

(** X13.  Whatever the page and the clock do, an invocation of the resolver
    is at most 51 rounds that sleep and one round that ends it, and of
    those at most 51 poll a tick; 52 rounds of fuel are always enough,
    and more fuel changes nothing. *)
Theorem resolver_polls_51_times_at_most (root : Locator) (ngModel : string)
    (value : JsValue) (w : World) :
  exists c w' k wk,
    (k <= 51)%nat
    /\ (w_clock (polled wk) <= deadline_of w -> (k < 51)%nat)
    /\ rounds (round root ngModel value (deadline_of w)) k tt (started w) = Some (tt, wk)
    /\ ends (round root ngModel value (deadline_of w)) tt wk c w'
    /\ forall fuel, (52 <= fuel)%nat ->
         getByNgModelValue fuel root ngModel value w = Some (c, w').
Proof.
  destruct (resolver_returns_in_52 root ngModel value w 52 (le_n _)) as [[c w'] Hr].
  destruct (while_loop_last _ _ _ _ _ _ Hr) as (k & [] & wk & _ & Hk & He).
  pose proof (Ticks.rounds_use_ticks _ pollInterval (deadline_of w) pollInterval_pos
                (resolver_progress root ngModel value (deadline_of w))
                k _ _ _ _ Hk) as B.
  rewrite ticks_at_start in B.
  exists c, w', k, wk. split; [lia|]. split; [|split; [exact Hk | split; [exact He|]]].
  - intros Hd. pose proof (later_polled wk) as (C & _).
    unfold Ticks.ticks_left in B.
    destruct (Z.leb_spec (w_clock wk) (deadline_of w)); lia.
  - intros fuel Hf. rewrite ResolverClaims.getByNgModelValue_loop.
    now apply (while_loop_mono _ 52).
Qed.

(** *** The markers *)

Definition digit (c : ascii) : bool :=
  let n := N_of_ascii c in ((48 <=? n) && (n <=? 57))%N.

Lemma uint_digits d : Str.all digit (DecimalString.NilEmpty.string_of_uint d) = true.
Proof. induction d; simpl; auto. Qed.

Lemma index_digits i : Str.all digit (number_to_string (Z.of_nat i)) = true.
Proof.
  unfold number_to_string. destruct (Z.of_nat i) as [|p|p] eqn:E; [reflexivity| |lia].
  simpl. destruct (Pos.to_uint p); [reflexivity | apply (uint_digits (_ _))..].
Qed.

(** A marker followed by something that is not part of a number gives
    back its index and its time. *)
Lemma marker_determined i t j u r1 r2 :
  Str.stops JsonFacts.num_char r1 = true -> Str.stops JsonFacts.num_char r2 = true ->
  tempId i t ++ r1 = tempId j u ++ r2 -> i = j /\ t = u /\ r1 = r2.
Proof.
  intros H1 H2 E. unfold tempId in E. rewrite !StrFacts.app_assoc in E.
  apply StrFacts.app_inv_head in E.
  apply (StrFacts.run_inj digit) in E as [Ei E];
    [| apply index_digits | apply index_digits | reflexivity | reflexivity].
  apply JsonFacts.number_inj in Ei. apply StrFacts.app_inv_head in E.
  apply (StrFacts.run_inj JsonFacts.num_char) in E as [Et E];
    [| apply JsonFacts.number_chars | apply JsonFacts.number_chars | exact H1 | exact H2].
  apply JsonFacts.number_inj in Et. split; [lia | auto].
Qed.

(** X14.  Two markers are the same only for the same position in the scan and
    the same time of the page clock, and so are the selectors built from
    them: within a tick no two candidates share a marker, and a marker
    of one tick is reused by another only at the same position in the
    same millisecond. *)
Theorem markers_are_distinct (i j : nat) (t u : Z) :
  (tempId i t = tempId j u <-> i = j /\ t = u)
  /\ (temp_selector i t = temp_selector j u <-> i = j /\ t = u).
Proof.
  split; (split; [|now intros [-> ->]]); intros E.
  - destruct (marker_determined i t j u "" "") as (-> & -> & _); auto.
    now rewrite !StrFacts.app_nil_r.
  - unfold temp_selector in E.
    do 4 apply StrFacts.app_inv_head in E.
    apply marker_determined in E as (-> & -> & _); auto.
Qed.

(** *** The selector of a model path *)

Lemma string_length_app (a b : string) :
  String.length (a ++ b) = (String.length a + String.length b)%nat.
Proof.
  induction a as [|x a IH]; [reflexivity|]. rewrite StrFacts.app_cons. simpl. now rewrite IH.
Qed.

Lemma string_app_inv_tail (a b c : string) : a ++ c = b ++ c -> a = b.
Proof.
  revert b. induction a as [|x a IH]; intros [|y b] E;
    rewrite ?StrFacts.app_cons, ?StrFacts.app_nil_l in E.
  - reflexivity.
  - apply (f_equal String.length) in E. simpl in E. rewrite string_length_app in E. lia.
  - apply (f_equal String.length) in E. simpl in E. rewrite string_length_app in E. lia.
  - inversion E; subst. f_equal. now apply IH.
Qed.

(** X15.  The selector of [getByNgModel] holds the model path as it was
    given, without escaping.  Two paths give the same selector text
    only when they are the same path; and a path that itself closes the
    quote and the bracket continues the selector: with [ >> ] and a
    second attribute selector in it, its selector text is that of a
    chain of two. *)
Theorem ng_model_selector_splices_path (a b p q : string) :
  (ng_model_selector a = ng_model_selector b <-> a = b)
  /\ ng_model_selector (p ++ dquote ++ "] >> [ng-model=" ++ dquote ++ q)
     = ng_model_selector p ++ " >> " ++ ng_model_selector q.
Proof.
  split; [split; [|now intros ->]|].
  - unfold ng_model_selector. intros E.
    do 2 apply StrFacts.app_inv_head in E.
    now apply string_app_inv_tail in E.
  - unfold ng_model_selector. rewrite !StrFacts.app_assoc. reflexivity.
Qed.

(** *** The scan of one tick *)

(** X16.  No candidate makes the scan of a tick throw: whatever the handles
    and the page do, the scan returns the selectors it was given
    followed by at most one new selector for each handle, and the host
    calls it makes are evaluations of its handles, each of them at least
    once. *)
Theorem scan_passes_over_failures (value : JsValue) (hs : list Handle) (i : nat)
    (sels : list string) (w : World) :
  exists more w' new,
    scan value hs i sels w = (Normal (sels ++ more)%list, w')
    /\ (List.length more <= List.length hs)%nat
    /\ w_calls w' = (new ++ w_calls w)%list
    /\ (forall h, In h hs -> In (CallEvaluate h) new)
    /\ (forall c, In c new -> exists h, c = CallEvaluate h /\ In h hs).
Proof.
  revert i sels w. induction hs as [|h hs IH]; intros i sels w.
  - exists [], w, []. simpl. rewrite app_nil_r.
    repeat split; auto; intros ? [].
  - destruct (ResolverClaims.candidate_step value h i sels w)
      as (m1 & w1 & n1 & C & L1 & K1 & N1 & _).
    destruct (IH (S i) (sels ++ m1)%list w1) as (m2 & w2 & n2 & S2 & L2 & K2 & A2 & B2).
    exists (m1 ++ m2)%list, w2, (n2 ++ n1)%list. simpl. unfold bind. rewrite C, S2.
    rewrite K2, K1, length_app, !app_assoc.
    split; [reflexivity | split; [lia | split; [reflexivity | split]]].
    + intros h' [<-|H']; apply in_or_app.
      * right. destruct N1 as [-> | ->]; now left.
      * left. now apply A2.
    + intros c Hc. apply in_app_or in Hc as [Hc|Hc].
      * destruct (B2 c Hc) as (h' & -> & Hh). exists h'. split; [reflexivity | now right].
      * exists h. split; [|now left].
        destruct N1 as [-> | ->]; simpl in Hc; intuition congruence.
Qed.

(** *** The one-pass resolver and the first tick *)

Lemma one_pass_tick ngModel value w :
  Earlier.getByNgModelValue ngModel value w
  = match tick [] ngModel value w with
    | (Normal sels, w') =>
        (Normal (locator [] (if (List.length sels =? 0)%nat then no_match
                             else Str.join ", " sels)), w')
    | (Throw e, w') => (Throw e, w')
    end.
Proof.
  unfold Earlier.getByNgModelValue, tick, bind.
  destruct (element_handles _ w) as [[hs|e] w1]; [|reflexivity].
  destruct (scan value hs 0 [] w1) as [[sels|e] w2]; [|reflexivity].
  now destruct (List.length sels =? 0)%nat.
Qed.

(** X17.  When the first tick of the polling resolver keeps a candidate, or
    its query throws, the invocation ends as the one-pass resolver of
    the second revision does in the world of that tick: the same
    completion, the same world after.  When the first tick keeps
    nothing, the one-pass resolver returns the sentinel locator at once,
    where the polling resolver sleeps and goes on. *)
Theorem polling_extends_one_pass (ngModel : string) (value : JsValue) (w : World)
    (fuel : nat) :
  w_clock (polled (started w)) <= deadline_of w ->
  match tick [] ngModel value (polled (started w)) with
  | (Normal [], w') =>
      Earlier.getByNgModelValue ngModel value (polled (started w))
      = (Normal (locator [] no_match), w')
      /\ round [] ngModel value (deadline_of w) tt (started w)
         = (Normal (Continue tt), slept w')
  | _ =>
      getByNgModelValue (S fuel) [] ngModel value w
      = Some (Earlier.getByNgModelValue ngModel value (polled (started w)))
  end.
Proof.
  intros Hd. rewrite one_pass_tick, ResolverClaims.getByNgModelValue_loop.
  destruct (tick [] ngModel value (polled (started w))) as [[[|sel sels]|e] w1] eqn:T.
  - split; [reflexivity|]. now apply resolver_round_empty.
  - simpl. now rewrite (resolver_round_kept _ _ _ _ _ _ _ _ Hd T).
  - simpl. now rewrite (resolver_round_threw _ _ _ _ _ _ _ Hd T).
Qed.

Lemma polling_extends_one_pass_witness :
  getByNgModelValue 1 [] "user.name" (JStr "Ann") ann_world
  = Some (Earlier.getByNgModelValue "user.name" (JStr "Ann") (polled (started ann_world))).
Proof.
  apply (polling_extends_one_pass "user.name" (JStr "Ann") ann_world 0).
  vm_compute. discriminate.
Defined.

(** *** A query that throws *)

(** X18.  The resolver does not catch what its query of the page throws: when
    the query of a tick it polls throws, the invocation throws the same
    message, right after that query. *)
Theorem failed_query_ends_the_resolver (root : Locator) (ngModel : string)
    (value : JsValue) (w : World) (k fuel : nat) (wk : World) (e : string) :
  rounds (round root ngModel value (deadline_of w)) k tt (started w) = Some (tt, wk) ->
  w_clock (polled wk) <= deadline_of w ->
  dom_nodes (w_dom wk (next (polled wk))) (getByNgModel root ngModel) = Throw e ->
  getByNgModelValue (k + S fuel) root ngModel value w
  = Some (Throw e, advance (CallElementHandles (getByNgModel root ngModel)) 0 (polled wk)).
Proof.
  intros Hk Hd Hn. rewrite ResolverClaims.getByNgModelValue_loop.
  apply (while_loop_ends _ k fuel _ _ tt wk); [exact Hk|].
  unfold ends.
  assert (T : tick root ngModel value (polled wk)
              = (Throw e, advance (CallElementHandles (getByNgModel root ngModel)) 0
                            (polled wk))).
  { unfold tick, bind, element_handles. unfold getByNgModel in Hn.
    change (w_dom (polled wk)) with (w_dom wk). now rewrite Hn. }
  rewrite (resolver_round_threw _ _ _ _ _ _ _ Hd T). auto.
Qed.

Lemma failed_query_ends_the_resolver_witness :
  getByNgModelValue 1 [] "user.name" (JStr "Ann") closed_world
  = Some (Throw "Target page, context or browser has been closed",
          advance (CallElementHandles name_locator) 0 (polled (started closed_world))).
Proof.
  apply (failed_query_ends_the_resolver [] "user.name" (JStr "Ann") closed_world 0 0
           (started closed_world));
    [reflexivity | vm_compute; discriminate | reflexivity].
Defined.

(** *** A page that cannot be read *)

Lemma stringify_undefined v : stringify v = None -> v = JUndefined.
Proof. destruct v as [ | |[|]| | | | ]; simpl; congruence. Qed.

Lemma unreadable_is_undefined win el :
  Reader.read_failure win el <> None ->
  pr_completion (Reader.candidate_value win el) = Normal JUndefined.
Proof.
  unfold Reader.read_failure, Reader.candidate_value.
  destruct (el_ng_model el) as [path|]; [|reflexivity].
  destruct (bool_decide (path = "")); [reflexivity|].
  destruct (negb (win_angular win)); [reflexivity|].
  destruct (el_scope el) as [scope|]; [|reflexivity].
  destruct (scope_eval scope) as [eval|]; [|reflexivity].
  destruct (eval path); [congruence | reflexivity].
Qed.

(** X19.  On a page none of whose elements can be read (no AngularJS, no
    scope, an expression that throws) and whose queries return, the
    resolver asked for a value other than [undefined] keeps no candidate:
    it polls until the deadline has passed and returns the sentinel
    locator, having set no attribute. *)
Theorem unreadable_page_gives_sentinel (root : Locator) (ngModel : string)
    (value : JsValue) (w : World) (fuel : nat) :
  (forall k, exists hs, dom_nodes (w_dom w k) (getByNgModel root ngModel) = Normal hs) ->
  (forall k h el win,
     dom_element (w_dom w k) h = Normal el ->
     win_angular win = dom_angular (w_dom w k) ->
     Reader.read_failure win el <> None) ->
  value <> JUndefined ->
  (51 < fuel)%nat ->
  exists w',
    getByNgModelValue fuel root ngModel value w
    = Some (Normal (locator root no_match), w')
    /\ deadline_of w < w_clock w'
    /\ w_writes w' = w_writes w.
Proof.
  intros Hq Hu Hv Hfuel.
  assert (N : nothing_kept root ngModel value w).
  { apply ResolverClaims.never_equal_nothing_kept. intros k. split; [apply Hq|].
    intros h el win v D A P.
    rewrite (unreadable_is_undefined win el (Hu k h el win D A)) in P.
    inversion P; subst. unfold Equality. apply bool_decide_eq_false.
    simpl. intros E. symmetry in E. now apply stringify_undefined in E. }
  destruct (resolver_returns_in_52 root ngModel value w fuel ltac:(lia)) as [[c w'] Hr].
  rewrite ResolverClaims.getByNgModelValue_loop, Hr.
  destruct (while_loop_last _ _ _ _ _ _ Hr) as (k & [] & wk & _ & Hk & He).
  unfold ends in He.
  destruct (Z.le_gt_cases (w_clock (polled wk)) (deadline_of w)) as [Hd|Hd].
  - specialize (N k wk Hk Hd).
    destruct (tick root ngModel value (polled wk)) as [c2 w2] eqn:T.
    simpl in N. subst c2.
    rewrite (resolver_round_empty _ _ _ _ _ _ Hd T) in He. contradiction.
  - rewrite (resolver_round_passed _ _ _ _ _ Hd) in He.
    destruct He as [-> ->]. exists (polled wk).
    split; [reflexivity | split; [lia|]].
    change (w_writes (polled wk)) with (w_writes wk).
    now rewrite (ResolverClaims.rounds_clean _ _ _ _ _ _ _ _ _ Hk).
Qed.

Lemma unreadable_page_gives_sentinel_witness :
  exists w',
    getByNgModelValue 52 [] "user.name" (JStr "Ann") unloaded_world
    = Some (Normal (locator [] no_match), w')
    /\ deadline_of unloaded_world < w_clock w'
    /\ w_writes w' = w_writes unloaded_world.
Proof.
  apply (unreadable_page_gives_sentinel [] "user.name" (JStr "Ann") unloaded_world 52).
  - intros k. eexists. reflexivity.
  - intros k h el win _ A. unfold Reader.read_failure.
    destruct (el_ng_model el) as [path|]; [|discriminate].
    destruct (bool_decide (path = "")); [discriminate|].
    simpl in A. rewrite A. discriminate.
  - discriminate.
  - lia.
Defined.

End ResolverMore.

(** ** The matcher *)

Module MatcherMore.
Import Json Host HostFacts LoopFacts Matcher Footprint FootprintFacts MatcherFacts Sample.

(** *** What it touches *)

Lemma ng_model_value_sets win el : pr_set (Reader.ng_model_value win el) = [].
Proof.
  unfold Reader.ng_model_value.
  destruct (el_ng_model el) as [path|]; [|reflexivity].
  destruct (bool_decide (path = "")); [reflexivity|].
  destruct (negb (win_angular win)); [reflexivity|].
  destruct (el_scope el) as [scope|]; [|reflexivity].
  destruct (scope_eval scope) as [eval|]; [|reflexivity].
  destruct (eval path); reflexivity.
Qed.

Lemma leaves_getNgModelValue (P : HostCall -> Prop) l :
  P (CallEvaluateFirst l) -> leaves P no_write (Reader.getNgModelValue l).
Proof.
  intros H. apply leaves_evaluate_first; [exact H|].
  intros h win el. rewrite ng_model_value_sets. constructor.
Qed.

Lemma leaves_attempt l expected seen :
  leaves (matcher_call l) no_write (attempt l expected seen).
Proof.
  unfold attempt. apply leaves_try_catch; [|intros; apply leaves_ret].
  apply leaves_bind; [apply leaves_count; reflexivity|]. intros n.
  destruct (1 <? n)%nat; [apply leaves_ret|].
  apply leaves_bind; [apply leaves_getNgModelValue; reflexivity|]. intros v.
  destruct (Equality v expected); apply leaves_ret.
Qed.

Lemma matcher_leaves_round l expected deadline seen :
  leaves (matcher_call l) no_write (round l expected deadline seen).
Proof.
  unfold round. apply leaves_bind; [apply leaves_date_now; exact I|]. intros now.
  destruct (now <=? deadline); [|apply leaves_ret].
  apply leaves_bind; [apply leaves_attempt|]. intros [outcome|seen'].
  - apply leaves_ret.
  - apply leaves_bind; [apply leaves_sleep; reflexivity | intros; apply leaves_ret].
Qed.

Lemma no_write_keeps (P : HostCall -> Prop) w w' :
  grows P no_write w w' -> w_writes w' = w_writes w.
Proof.
  intros [_ (writes & E & F)]. destruct writes as [|wr writes]; [exact E|].
  inversion F as [|? ? []].
Qed.

(** X20.  The matcher only looks: however an invocation ends, it has set no
    attribute on the page, and the host calls it has made are clock
    reads, sleeps of its poll interval, and counts and first-element
    evaluations on the locator it was given. *)
Theorem matcher_footprint (l : Locator) (expected : JsValue) (options : option Options)
    (w : World) (fuel : nat) (c : Completion Outcome) (w' : World) :
  toHaveNgValue fuel l expected options w = Some (c, w') ->
  grows (matcher_call l) no_write w w' /\ w_writes w' = w_writes w.
Proof.
  intros H. rewrite MatcherClaims.toHaveNgValue_loop in H.
  assert (G : grows (matcher_call l) no_write w w').
  { apply (grows_trans _ _ _ (started w)); [apply grows_advance; exact I|].
    apply (leaves_while_loop _ _ _ _ _ _ _ _ (matcher_leaves_round l expected _) H). }
  split; [exact G | exact (no_write_keeps _ _ _ G)].
Qed.

Lemma matcher_footprint_witness :
  grows (matcher_call name_locator) no_write ann_world (polled ann_after_two)
  /\ w_writes (polled ann_after_two) = w_writes ann_world.
Proof.
  apply (matcher_footprint name_locator (JStr "Bob") within_60 ann_world 3
           (Normal (timeout_outcome (JStr "Bob") (with_actual nothing_seen (JStr "Ann"))))).
  vm_compute. reflexivity.
Defined.

(** *** How long it polls *)

(** The ticks that fit in the timeout, one every 50 ms. *)
Definition max_ticks (options : option Options) : nat :=
  if 0 <=? timeout_of options then (Z.to_nat (timeout_of options / pollInterval) + 1)%nat
  else O.

Lemma matcher_ticks_at_start options w :
  Ticks.ticks_left pollInterval (deadline_of options w) (started w) = max_ticks options.
Proof.
  unfold Ticks.ticks_left, max_ticks, deadline_of.
  destruct (Z.leb_spec (w_clock (started w)) (w_clock (started w) + timeout_of options));
    destruct (Z.leb_spec 0 (timeout_of options)); try lia.
  now replace (w_clock (started w) + timeout_of options - w_clock (started w))
    with (timeout_of options) by lia.
Qed.

Lemma matcher_pollInterval_pos : 0 < pollInterval.
Proof. reflexivity. Qed.

Lemma matcher_returns_in_ticks l expected options w fuel :
  (max_ticks options < fuel)%nat ->
  exists r, while_loop (round l expected (deadline_of options w)) fuel nothing_seen (started w)
            = Some r.
Proof.
  intros Hf.
  apply (Ticks.loop_returns_in_ticks _ pollInterval (deadline_of options w)
           matcher_pollInterval_pos
           (matcher_round_progress l expected (deadline_of options w))).
  now rewrite matcher_ticks_at_start.
Qed.

(** X21.  Whatever the page and the clock do, an invocation of the matcher
    with timeout [t] is at most [t / 50 + 1] rounds that sleep (none
    when [t] is negative) and one round that ends it with an outcome;
    of those at most [t / 50 + 1] poll a tick.  One round of fuel more
    than that is always enough, and more fuel changes nothing. *)
Theorem matcher_polls_within_timeout (l : Locator) (expected : JsValue)
    (options : option Options) (w : World) :
  exists outcome w' k seen wk,
    (k <= max_ticks options)%nat
    /\ (w_clock (polled wk) <= deadline_of options w -> (k < max_ticks options)%nat)
    /\ rounds (round l expected (deadline_of options w)) k nothing_seen (started w)
       = Some (seen, wk)
    /\ ends (round l expected (deadline_of options w)) seen wk (Normal outcome) w'
    /\ forall fuel, (max_ticks options < fuel)%nat ->
         toHaveNgValue fuel l expected options w = Some (Normal outcome, w').
Proof.
  destruct (matcher_returns_in_ticks l expected options w (S (max_ticks options))
              (Nat.lt_succ_diag_r _)) as [[c w'] Hr].
  destruct (matcher_loop_normal _ _ _ _ _ _ _ _ Hr) as [outcome ->].
  destruct (while_loop_last _ _ _ _ _ _ Hr) as (k & seen & wk & _ & Hk & He).
  pose proof (Ticks.rounds_use_ticks _ pollInterval (deadline_of options w)
                matcher_pollInterval_pos
                (matcher_round_progress l expected (deadline_of options w))
                k _ _ _ _ Hk) as B.
  rewrite matcher_ticks_at_start in B.
  exists outcome, w', k, seen, wk.
  split; [lia|]. split; [|split; [exact Hk | split; [exact He|]]].
  - intros Hd. pose proof (ResolverFacts.later_polled wk) as (C & _).
    unfold Ticks.ticks_left in B.
    destruct (Z.leb_spec (w_clock wk) (deadline_of options w)); lia.
  - intros fuel Hf. rewrite MatcherClaims.toHaveNgValue_loop.
    apply (while_loop_mono _ (S (max_ticks options))); [exact Hr | lia].
Qed.

(** *** What it can return *)

Lemma attempt_break l expected seen w outcome w' :
  attempt l expected seen w = (Normal (Break outcome), w') ->
  (exists n, (1 < n)%nat /\ outcome = strict_outcome expected n)
  \/ (exists n w1 v,
        count l w = (Normal n, w1) /\ (n <= 1)%nat
        /\ Reader.getNgModelValue l w1 = (Normal v, w')
        /\ Equality v expected = true
        /\ outcome = pass_outcome expected v).
Proof.
  intros A. destruct (count l w) as [[n|e] w1] eqn:C.
  - destruct (Nat.ltb_spec 1 n) as [Hn|Hn].
    + rewrite (attempt_strict _ expected seen _ _ _ C Hn) in A. inversion A; subst.
      left. eauto.
    + destruct (Reader.getNgModelValue l w1) as [[v|e] w2] eqn:G.
      * destruct (Equality v expected) eqn:E.
        -- rewrite (attempt_equal _ _ seen _ _ _ _ _ C Hn G E) in A. inversion A; subst.
           right. exists n, w1, v. auto.
        -- rewrite (attempt_differs _ _ seen _ _ _ _ _ C Hn G E) in A. discriminate.
      * rewrite (attempt_read_threw _ expected seen _ _ _ _ _ C Hn G) in A. discriminate.
  - rewrite (attempt_count_threw _ expected seen _ _ _ C) in A. discriminate.
Qed.

(** X22.  An invocation of the matcher that returns, returns one of three
    outcomes, each under the name [toHaveNgValue] and with the expected
    value it was given.  It passes only when, before the deadline, the
    locator resolved to at most one element and the read that followed
    returned a value with the serialisation of the expected one; that
    value is the [actual] of the outcome and that read is the last thing
    the invocation did.  Otherwise it fails: on a strict-mode violation,
    or with the deadline behind it. *)
Theorem matcher_outcomes (l : Locator) (expected : JsValue) (options : option Options)
    (w : World) (fuel : nat) (c : Completion Outcome) (w' : World) :
  toHaveNgValue fuel l expected options w = Some (c, w') ->
  exists outcome,
    c = Normal outcome
    /\ name outcome = "toHaveNgValue"
    /\ Matcher.expected outcome = expected
    /\ ((pass outcome = true
         /\ exists w0 n w1,
              w_clock w0 <= deadline_of options w
              /\ count l w0 = (Normal n, w1) /\ (n <= 1)%nat
              /\ Reader.getNgModelValue l w1 = (Normal (actual outcome), w')
              /\ Equality (actual outcome) expected = true
              /\ outcome = pass_outcome expected (actual outcome))
        \/ (pass outcome = false
            /\ exists n, (1 < n)%nat /\ outcome = strict_outcome expected n)
        \/ (pass outcome = false
            /\ deadline_of options w < w_clock w'
            /\ exists seen, outcome = timeout_outcome expected seen)).
Proof.
  intros H. rewrite MatcherClaims.toHaveNgValue_loop in H.
  destruct (while_loop_last _ _ _ _ _ _ H) as (k & seen & wk & _ & Hk & He).
  unfold ends in He.
  destruct (Z.le_gt_cases (w_clock (polled wk)) (deadline_of options w)) as [Hd|Hd].
  - destruct (attempt_normal l expected seen (polled wk)) as [step A].
    destruct (attempt l expected seen (polled wk)) as [c0 w2] eqn:A'.
    simpl in A. subst c0. destruct step as [outcome|seen2].
    + rewrite (matcher_round_break _ _ _ _ _ _ _ Hd A') in He. destruct He as [-> ->].
      exists outcome.
      destruct (attempt_break _ _ _ _ _ _ A') as [(n & Hn & ->)|(n & w1 & v & C & Hn & G & E & ->)].
      * repeat split. right. left. split; [reflexivity|]. eauto.
      * repeat split. left. split; [reflexivity|].
        exists (polled wk), n, w1. simpl.
        split; [exact Hd|]. split; [exact C|]. split; [exact Hn|]. auto.
    + rewrite (matcher_round_retry _ _ _ _ _ _ _ Hd A') in He. contradiction.
  - rewrite (matcher_round_passed _ _ _ _ _ Hd) in He. destruct He as [-> ->].
    exists (timeout_outcome expected seen). repeat split.
    right. right. split; [reflexivity|]. split; [lia|]. eauto.
Qed.

Lemma matcher_outcomes_witness :
  exists outcome,
    Normal (pass_outcome (JStr "Ann") (JStr "Ann")) = Normal outcome
    /\ name outcome = "toHaveNgValue"
    /\ Matcher.expected outcome = JStr "Ann"
    /\ ((pass outcome = true
         /\ exists w0 n w1,
              w_clock w0 <= deadline_of None ann_world
              /\ count name_locator w0 = (Normal n, w1) /\ (n <= 1)%nat
              /\ Reader.getNgModelValue name_locator w1
                 = (Normal (actual outcome),
                    snd (attempt name_locator (JStr "Ann") nothing_seen
                           (polled (started ann_world))))
              /\ Equality (actual outcome) (JStr "Ann") = true
              /\ outcome = pass_outcome (JStr "Ann") (actual outcome))
        \/ (pass outcome = false
            /\ exists n, (1 < n)%nat /\ outcome = strict_outcome (JStr "Ann") n)
        \/ (pass outcome = false
            /\ deadline_of None ann_world
               < w_clock (snd (attempt name_locator (JStr "Ann") nothing_seen
                                 (polled (started ann_world))))
            /\ exists seen, outcome = timeout_outcome (JStr "Ann") seen)).
Proof.
  apply (matcher_outcomes name_locator (JStr "Ann") None ann_world 1).
  vm_compute. reflexivity.
Defined.

(** *** A timeout that has already passed *)

(** X23.  With a negative timeout the matcher never looks at the page: it
    reads the clock twice and fails, reporting that no value was seen
    and no error either. *)
Theorem negative_timeout_fails_unseen (l : Locator) (expected : JsValue)
    (options : option Options) (w : World) (fuel : nat) :
  timeout_of options < 0 ->
  toHaveNgValue (S fuel) l expected options w
  = Some (Normal (timeout_outcome expected nothing_seen), polled (started w))
  /\ message (timeout_outcome expected nothing_seen)
     = "Expected ng-model to have value: " ++ template expected ++ newline
       ++ "Received: No value (last error: unknown)"
  /\ w_calls (polled (started w)) = CallNow :: CallNow :: w_calls w.
Proof.
  intros Ht. split; [|split; reflexivity].
  rewrite MatcherClaims.toHaveNgValue_loop.
  apply (while_loop_ends _ O fuel _ _ nothing_seen (started w)); [reflexivity|].
  unfold ends. rewrite matcher_round_passed; [auto|].
  pose proof (ResolverFacts.later_polled (started w)) as (C & _).
  unfold deadline_of. lia.
Qed.

Lemma negative_timeout_fails_unseen_witness :
  toHaveNgValue 1 name_locator (JStr "Ann") already_late ann_world
  = Some (Normal (timeout_outcome (JStr "Ann") nothing_seen), polled (started ann_world))
  /\ message (timeout_outcome (JStr "Ann") nothing_seen)
     = "Expected ng-model to have value: " ++ template (JStr "Ann") ++ newline
       ++ "Received: No value (last error: unknown)"
  /\ w_calls (polled (started ann_world)) = CallNow :: CallNow :: w_calls ann_world.
Proof.
  apply (negative_timeout_fails_unseen name_locator (JStr "Ann") already_late ann_world 0).
  reflexivity.
Defined.

(** *** The matcher of the second revision *)

(** X24.  The matcher of the second revision is one read and no more: it
    never throws, reads no clock and does not sleep.  It passes exactly
    when the read returned a value with the serialisation of the
    expected one, and a read that throws is a failed assertion whose
    result carries neither [expected] nor [actual]. *)
Theorem earlier_matcher_is_one_read (l : Locator) (expected : JsValue) (w : World) :
  exists r,
    Earlier.toHaveNgValue l expected w = (Normal r, snd (Reader.getNgModelValue l w))
    /\ w_calls (snd (Reader.getNgModelValue l w)) = CallEvaluateFirst l :: w_calls w
    /\ w_writes (snd (Reader.getNgModelValue l w)) = w_writes w
    /\ Earlier.name r = "toHaveNgValue"
    /\ match fst (Reader.getNgModelValue l w) with
       | Normal v =>
           Earlier.pass r = Equality v expected
           /\ Earlier.expected r = Some expected /\ Earlier.actual r = Some v
       | Throw e =>
           Earlier.pass r = false
           /\ Earlier.message r = "Failed to evaluate ng-model: " ++ e
           /\ Earlier.expected r = None /\ Earlier.actual r = None
       end.
Proof.
  assert (C : w_calls (snd (Reader.getNgModelValue l w)) = CallEvaluateFirst l :: w_calls w).
  { unfold Reader.getNgModelValue, evaluate_first, run_in_page.
    destruct (dom_nodes _ l) as [[|h hs]|e]; try reflexivity.
    destruct (dom_element _ h); reflexivity. }
  assert (W : w_writes (snd (Reader.getNgModelValue l w)) = w_writes w).
  { apply (no_write_keeps (fun _ => True)).
    apply (leaves_getNgModelValue (fun _ => True) l I w). }
  unfold Earlier.toHaveNgValue, try_catch, bind.
  destruct (Reader.getNgModelValue l w) as [[v|e] w1]; simpl in *;
    eexists; (split; [reflexivity|]); repeat split; auto.
Qed.

(** X25.  Where the matcher of the second revision fails at once, the current
    one tries again: in a tick in which the locator resolved to at most
    one element, the attempt ends the loop exactly when the one read of
    the second revision passes, with the same message and the same
    [actual]; when that read fails or differs, the attempt goes on to
    the next round. *)
Theorem attempt_retries_where_earlier_failed (l : Locator) (expected : JsValue)
    (seen : Seen) (w : World) (n : nat) (w1 : World) :
  count l w = (Normal n, w1) -> (n <= 1)%nat ->
  exists r,
    fst (Earlier.toHaveNgValue l expected w1) = Normal r
    /\ snd (attempt l expected seen w) = snd (Earlier.toHaveNgValue l expected w1)
    /\ if Earlier.pass r then
         exists outcome,
           fst (attempt l expected seen w) = Normal (Break outcome)
           /\ pass outcome = true
           /\ message outcome = Earlier.message r
           /\ Some (actual outcome) = Earlier.actual r
       else exists seen', fst (attempt l expected seen w) = Normal (Continue seen').
Proof.
  intros C Hn. unfold Earlier.toHaveNgValue, try_catch, bind.
  destruct (Reader.getNgModelValue l w1) as [[v|e] w2] eqn:G.
  - destruct (Equality v expected) eqn:E.
    + rewrite (attempt_equal _ _ seen _ _ _ _ _ C Hn G E).
      eexists. split; [reflexivity|]. split; [reflexivity|]. simpl.
      eexists. split; [reflexivity|]. repeat split.
    + rewrite (attempt_differs _ _ seen _ _ _ _ _ C Hn G E).
      eexists. split; [reflexivity|]. split; [reflexivity|]. simpl. eauto.
  - rewrite (attempt_read_threw _ expected seen _ _ _ _ _ C Hn G).
    eexists. split; [reflexivity|]. split; [reflexivity|]. simpl. eauto.
Qed.

Lemma attempt_retries_where_earlier_failed_witness :
  exists r,
    fst (Earlier.toHaveNgValue name_locator (JStr "Ann")
           (advance (CallCount name_locator) 0 unloaded_world)) = Normal r
    /\ snd (attempt name_locator (JStr "Ann") nothing_seen unloaded_world)
       = snd (Earlier.toHaveNgValue name_locator (JStr "Ann")
                (advance (CallCount name_locator) 0 unloaded_world))
    /\ if Earlier.pass r then
         exists outcome,
           fst (attempt name_locator (JStr "Ann") nothing_seen unloaded_world)
           = Normal (Break outcome)
           /\ pass outcome = true
           /\ message outcome = Earlier.message r
           /\ Some (actual outcome) = Earlier.actual r
       else exists seen',
           fst (attempt name_locator (JStr "Ann") nothing_seen unloaded_world)
           = Normal (Continue seen').
Proof.
  apply (attempt_retries_where_earlier_failed name_locator (JStr "Ann") nothing_seen
           unloaded_world 1);
    [reflexivity | lia].
Defined.

End MatcherMore.
